(** * policies.py: featurization, dataset construction and the training loop

    A shallow embedding of [src/policies.py].  Python lists and tuples are
    Rocq lists, a raised exception is the [Raise] branch of [result], and the
    calls into the cheminformatics toolkit are taken as parameters. *)

From Stdlib Require Import ZArith Permutation Ring_theory InitialRing.
From stdpp Require Import base list gmap strings.

(** ** Python exceptions *)

Inductive exn : Set :=
| IndexError
| ValueError
| NameError
| ArgumentError
| ZeroDivisionError
| KeyError.

Inductive result (A : Type) : Type :=
| Ok (a : A)
| Raise (e : exn).
Arguments Ok {A} a.
Arguments Raise {A} e.

Definition rbind {A B} (r : result A) (k : A → result B) : result B :=
  match r with
  | Ok a => k a
  | Raise e => Raise e
  end.

Declare Scope py_scope.
Delimit Scope py_scope with py.
Notation "'let?' x := r 'in' k" := (rbind r (λ x, k))
  (at level 10, x name, r at level 100, k at level 200) : py_scope.
Open Scope py_scope.

(** ** Bit vectors and boolean arrays *)

(** An RDKit [ExplicitBitVect]: [len(fp)] is its number of bits. *)
Abbreviation BitVect := (list bool) (only parsing).

Definition GetNumBits (fp : BitVect) : nat := length fp.

(** [fp.GetOnBits()]: the indices of the bits that are set, ascending. *)
Fixpoint on_bits_from (i : nat) (fp : BitVect) : list nat :=
  match fp with
  | [] => []
  | b :: fp' => (if b then [i] else []) ++ on_bits_from (S i) fp'
  end.

Definition GetOnBits (fp : BitVect) : list nat := on_bits_from 0 fp.

(** A two-dimensional boolean [ndarray], row by row. *)
Abbreviation ndarray := (list (list bool)) (only parsing).

(** [np.zeros((rows, cols), dtype=np.bool)] *)
Definition np_zeros (rows cols : nat) : ndarray :=
  replicate rows (replicate cols false).

(** [row[js] = 1] on one row. *)
Definition set_bits (row : list bool) (js : list nat) : list bool :=
  foldl (λ r j, <[j:=true]> r) row js.

(** [arr[i, onbits] = 1]: numpy raises IndexError when the row or one of the
    column indices is out of bounds. *)
Definition assign_row (arr : ndarray) (i : nat) (onbits : list nat)
  : result ndarray :=
  match arr !! i with
  | None => Raise IndexError
  | Some row =>
      if forallb (λ j, j <? length row) onbits
      then Ok (<[i:=set_bits row onbits]> arr)
      else Raise IndexError
  end.

(** The body of [for i, fp in enumerate(fps)] in [fps_to_arr]. *)
Fixpoint fps_to_arr_loop (i : nat) (fps : list BitVect) (arr : ndarray)
  : result ndarray :=
  match fps with
  | [] => Ok arr
  | fp :: rest =>
      let onbits := GetOnBits fp in
      let? arr' := assign_row arr i onbits in
      fps_to_arr_loop (S i) rest arr'
  end.

(** [fps_to_arr]: [fps[0]] raises IndexError on the empty list. *)
Definition fps_to_arr (fps : list BitVect) : result ndarray :=
  match fps with
  | [] => Raise IndexError
  | fp0 :: _ =>
      let fp_dim := length fp0 in
      let arr := np_zeros (length fps) fp_dim in
      fps_to_arr_loop 0 fps arr
  end.

(** Entry [(i, j)] of an array, [None] outside its shape. *)
Definition entry {A} (arr : list (list A)) (i j : nat) : option A :=
  row ← arr !! i; row !! j.

(** ** The highway layer

    Tensors of rank two are lists of rows.  The scalars are taken in a type
    [R] with the operations of a ring: the arithmetic of the layer is read as
    exact, rounding is not modelled.  The variables [W_T], [b_T], [W] and [b]
    of the layer are arguments, with whatever values they hold. *)
Section Highway.
Context {R : Type}.
Variables (rO rI : R) (radd rmul rsub : R → R → R).
Variable sigmoid : R → R.

(** [tf.add], [tf.multiply] on tensors of one shape *)
Definition tf_add (a b : list (list R)) : list (list R) :=
  zip_with (zip_with radd) a b.

Definition tf_multiply (a b : list (list R)) : list (list R) :=
  zip_with (zip_with rmul) a b.

(** [tf.subtract(c, t)] with the scalar [c] broadcast *)
Definition tf_subtract_scalar (c : R) (t : list (list R)) : list (list R) :=
  (λ row : list R, rsub c <$> row) <$> t.

(** One row of [tf.matmul(x, W)], with [W] of shape [(size, size)]: the
    combination of the rows of [W] with the entries of the row of [x]. *)
Definition row_matmul (size : nat) (xr : list R) (W : list (list R))
  : list R :=
  foldr (zip_with radd) (replicate size rO)
    (zip_with (λ xk Wk, rmul xk <$> Wk) xr W).

Definition tf_matmul (size : nat) (x W : list (list R)) : list (list R) :=
  (λ xr, row_matmul size xr W) <$> x.

(** [m + b] with the bias [b] broadcast over the rows *)
Definition add_bias (m : list (list R)) (b : list R) : list (list R) :=
  (λ row, zip_with radd row b) <$> m.

Definition tf_sigmoid (m : list (list R)) : list (list R) :=
  (λ row : list R, sigmoid <$> row) <$> m.

(** [T = tf.sigmoid(tf.matmul(x, W_T) + b_T)] *)
Definition transform_gate (size : nat) (x W_T : list (list R))
    (b_T : list R) : list (list R) :=
  tf_sigmoid (add_bias (tf_matmul size x W_T) b_T).

(** [H = activation(tf.matmul(x, W) + b)] *)
Definition activation_output (size : nat) (x : list (list R))
    (activation : list (list R) → list (list R)) (W : list (list R))
    (b : list R) : list (list R) :=
  activation (add_bias (tf_matmul size x W) b).

(** [C = tf.subtract(1.0, T)] *)
Definition carry_gate (T : list (list R)) : list (list R) :=
  tf_subtract_scalar rI T.

(** [highway_layer(x, activation)], [size = x.shape[-1]] *)
Definition highway_layer (size : nat) (x : list (list R))
    (activation : list (list R) → list (list R))
    (W_T : list (list R)) (b_T : list R) (W : list (list R)) (b : list R)
  : list (list R) :=
  let T := transform_gate size x W_T b_T in
  let H := activation_output size x activation W b in
  let C := carry_gate T in
  tf_add (tf_multiply H T) (tf_multiply x C).
End Highway.

(** ** The cheminformatics toolkit

    The RDKit entry points the module calls.  [MolFromSmiles] yields [None]
    on a string it cannot parse, and the fingerprint call then raises;
    [ReactionFromSmarts] raises on a string it cannot parse, which is [None]
    here. *)

Record Toolkit : Type := {
  Mol : Type;
  Rxn : Type;
  MolFromSmiles : string → option Mol;
  (* GetMorganFingerprintAsBitVect(mol, radius, nBits=...) *)
  GetMorganFingerprintAsBitVect : Mol → nat → nat → BitVect;
  ReactionFromSmarts : string → option Rxn;
  CreateStructuralFingerprintForReaction : Rxn → BitVect;
}.

(** The toolkit's contract for Morgan bit vectors: [nBits] bits. *)
Definition morgan_nbits (tk : Toolkit) : Prop :=
  ∀ (m : Mol tk) (radius n : nat),
    0 < n → length (GetMorganFingerprintAsBitVect tk m radius n) = n.

(** [DataStructs.FoldFingerprint(fp, factor)]: the result has
    [numBits / factor] bits, bit [j] of the input lands on bit
    [j mod (numBits / factor)]; a factor of zero, or one not below the number
    of bits, is refused. *)
Definition FoldFingerprint (fp : BitVect) (factor : nat) : result BitVect :=
  if (factor =? 0) || (GetNumBits fp <=? factor) then Raise IndexError
  else
    let resSize := GetNumBits fp / factor in
    Ok (set_bits (replicate resSize false)
          ((λ j, j mod resSize) <$> GetOnBits fp)).

(** Python's [a // b] on non-negative integers. *)
Definition floordiv (a b : nat) : result nat :=
  if b =? 0 then Raise ZeroDivisionError else Ok (a / b).

Section Fingerprints.
Variable tk : Toolkit.

(** One iteration of the loop of [fingerprint_mols]; [fp_dim] stands for
    [int(fp_dim)], the radius is 2. *)
Definition fingerprint_mol (mol : string) (fp_dim : nat) : result BitVect :=
  match MolFromSmiles tk mol with
  | None => Raise ArgumentError
  | Some mol => Ok (GetMorganFingerprintAsBitVect tk mol 2 fp_dim)
  end.

Fixpoint fingerprint_mols_loop (mols : list string) (fp_dim : nat)
    (fps : list BitVect) : result (list BitVect) :=
  match mols with
  | [] => Ok fps
  | mol :: mols' =>
      let? fp := fingerprint_mol mol fp_dim in
      fingerprint_mols_loop mols' fp_dim (fps ++ [fp])
  end.

Definition fingerprint_mols (mols : list string) (fp_dim : nat)
  : result (list BitVect) :=
  fingerprint_mols_loop mols fp_dim [].

(** One iteration of the loop of [fingerprint_reactions]. *)
Definition fingerprint_reaction (r : string) (fp_dim : nat)
  : result BitVect :=
  match ReactionFromSmarts tk r with
  | None => Raise ValueError
  | Some rxn =>
      let fp := CreateStructuralFingerprintForReaction tk rxn in
      let? fold_factor := floordiv (GetNumBits fp) fp_dim in
      FoldFingerprint fp fold_factor
  end.

Fixpoint fingerprint_reactions_loop (reactions : list string) (fp_dim : nat)
    (fps : list BitVect) : result (list BitVect) :=
  match reactions with
  | [] => Ok fps
  | r :: reactions' =>
      let? fp := fingerprint_reaction r fp_dim in
      fingerprint_reactions_loop reactions' fp_dim (fps ++ [fp])
  end.

Definition fingerprint_reactions (reactions : list string) (fp_dim : nat)
  : result (list BitVect) :=
  fingerprint_reactions_loop reactions fp_dim [].

(** [RolloutPolicyNet.preprocess] and [ExpansionPolicyNet.preprocess], with
    [self.fp_dim] as an argument. *)
Definition RolloutPolicyNet_preprocess (fp_dim : nat) (X : list string)
  : result ndarray :=
  let? fps := fingerprint_mols X fp_dim in fps_to_arr fps.

Definition ExpansionPolicyNet_preprocess (fp_dim : nat) (X : list string)
  : result ndarray :=
  let? X := fingerprint_mols X fp_dim in
  fps_to_arr X.

(** Strings the toolkit parses. *)
Definition valid_smiles (mol : string) : Prop :=
  is_Some (MolFromSmiles tk mol).


(** The structural fingerprint of a reaction string, when it parses. *)
Definition structural_bits (r : string) : option nat :=
  rxn ← ReactionFromSmarts tk r;
  Some (GetNumBits (CreateStructuralFingerprintForReaction tk rxn)).
End Fingerprints.

(** ** Runs of the featurization over a toolkit given by its answers

    [morgan s n fp]: fingerprinting the molecule string [s] with [nBits = n]
    may answer [fp].  Nothing is assumed of the relation here, so a run of the
    loop is a relation as well. *)

Section Runs.
Variable morgan : string → nat → BitVect → Prop.


End Runs.


(** ** A small toolkit to evaluate the definitions on

    Every non-empty string parses.  A Morgan vector has [nBits] bits, one of
    them set; a structural reaction fingerprint has 4096 bits, one of them
    set. *)
Definition sample_toolkit : Toolkit := {|
  Mol := string;
  Rxn := string;
  MolFromSmiles := λ s, if String.eqb s EmptyString then None else Some s;
  GetMorganFingerprintAsBitVect := λ m _ n,
    <[String.length m mod n := true]> (replicate n false);
  ReactionFromSmarts := λ s, if String.eqb s EmptyString then None else Some s;
  CreateStructuralFingerprintForReaction := λ r,
    <[String.length r := true]> (replicate 4096 false);
|}.

(** ** The [random] module

    The generator is the list of the numbers it will draw next.  A run that
    asks for a draw when the list is used up is [Starved]: the list given was
    too short to follow the program to its end. *)

Abbreviation rng := (list nat) (only parsing).

Inductive outcome (A : Type) : Type :=
| Done (a : A) (g : rng)
| Raised (e : exn)
| Starved.
Arguments Done {A} a g.
Arguments Raised {A} e.
Arguments Starved {A}.

Definition M (A : Type) : Type := rng → outcome A.

Definition ret {A} (a : A) : M A := λ g, Done a g.

Definition bind {A B} (m : M A) (k : A → M B) : M B :=
  λ g, match m g with
       | Done a g' => k a g'
       | Raised e => Raised e
       | Starved => Starved
       end.

Definition raise {A} (e : exn) : M A := λ _, Raised e.

Definition lift {A} (r : result A) : M A :=
  match r with
  | Ok a => ret a
  | Raise e => raise e
  end.

Notation "x <- m ;; k" := (bind m (λ x, k))
  (at level 100, m at level 99, k at level 200, right associativity)
  : py_scope.

(** A uniform draw below [n]. *)
Definition randbelow (n : nat) : M nat :=
  λ g, match g with
       | [] => Starved
       | d :: g' => Done (d mod n) g'
       end.

(** [random.choice(seq)] *)
Definition choice {A} (seq : list A) : M A :=
  match seq with
  | [] => raise IndexError
  | _ :: _ =>
      i <- randbelow (length seq);;
      match seq !! i with
      | Some x => ret x
      | None => raise IndexError
      end
  end.

(** [x[i], x[j] = x[j], x[i]] *)
Definition swap {A} (x : list A) (i j : nat) : list A :=
  match x !! i, x !! j with
  | Some a, Some b => <[j:=a]> (<[i:=b]> x)
  | _, _ => x
  end.

(** [random.shuffle(x)]:
    [for i in reversed(range(1, len(x))): j = randbelow(i + 1); swap]. *)
Fixpoint shuffle_from {A} (i : nat) (x : list A) : M (list A) :=
  match i with
  | 0 => ret x
  | S i' =>
      j <- randbelow (i + 1);;
      shuffle_from i' (swap x i j)
  end.

Definition shuffle {A} (x : list A) : M (list A) :=
  shuffle_from (length x - 1) x.

(** ** The training loop *)

(** [int(np.ceil(a / b))] *)
Definition ceil_div (a b : nat) : result nat :=
  if b =? 0 then Raise ZeroDivisionError
  else Ok (a / b + (if a mod b =? 0 then 0 else 1)).

(** The slice [X[l:u]]. *)
Definition slice {A} (X : list A) (l u : nat) : list A :=
  take (u - l) (drop l X).

(** Unpacking [xy] back into [X, y]: it fails when [xy] is empty. *)
Definition unzip {A L} (xy : list (A * L)) : result (list A * list L) :=
  match xy with
  | [] => Raise ValueError
  | _ :: _ => Ok (xy.*1, xy.*2)
  end.

(** What the loop has done in one epoch: the dataset as shuffled for it, and
    the batches fed to the session, in order. *)
Record epoch_log (A L : Type) : Type := {
  shuffled_X : list A;
  shuffled_y : list L;
  fed : list (list A * list L);
}.
Arguments shuffled_X {A L} _.
Arguments shuffled_y {A L} _.
Arguments fed {A L} _.

Section Train.
Context {A L F : Type}.

(** [net.preprocess]: the features of a batch, or the exception it
    raises. *)
Variable preprocess : list A → result F.

(** The shuffle of an epoch:
    [xy = list(zip(X, y)); random.shuffle(xy); X, y = zip] of [xy]
    unpacked. *)
Definition shuffle_Xy (X : list A) (y : list L) : M (list A * list L) :=
  xy <- shuffle (zip X y);;
  lift (unzip xy).

(** The slices of step [i]: [(X[l:u], y[l:u])]. *)
Definition batch_at (batch_size : nat) (X : list A) (y : list L) (i : nat)
  : list A * list L :=
  let l := i * batch_size in
  let u := l + batch_size in
  (slice X l u, slice y l u).

(** [for i in range(n_steps)], over the indices still to visit; [fed]
    collects the batches of the steps run so far.  The session run of a
    step is the framework's: a step that gets through [net.preprocess] is
    recorded as the batch it takes. *)
Fixpoint train_steps (steps : list nat) (batch_size : nat) (X : list A)
    (y : list L) (fed : list (list A * list L))
  : result (list (list A * list L)) :=
  match steps with
  | [] => Ok fed
  | i :: steps' =>
      let '(X_batch, y_batch) := batch_at batch_size X y i in
      let? _ := preprocess X_batch in
      train_steps steps' batch_size X y (fed ++ [(X_batch, y_batch)])
  end.

(** [for e in range(epochs)]; [log] collects the epochs run so far. *)
Fixpoint train_epochs (epochs n_steps batch_size : nat) (X : list A)
    (y : list L) (log : list (epoch_log A L)) : M (list (epoch_log A L)) :=
  match epochs with
  | 0 => ret log
  | S epochs' =>
      Xy <- shuffle_Xy X y;;
      let '(X, y) := Xy in
      batches <- lift (train_steps (seq 0 n_steps) batch_size X y []);;
      let ep := {| shuffled_X := X; shuffled_y := y; fed := batches |} in
      train_epochs epochs' n_steps batch_size X y (log ++ [ep])
  end.

(** [train(sess, net, X, y, ckpt_path, logname, batch_size, epochs)] *)
Definition train (X : list A) (y : list L) (batch_size epochs : nat)
  : M (list (epoch_log A L)) :=
  n_steps <- lift (ceil_div (length X) batch_size);;
  train_epochs epochs n_steps batch_size X y [].
End Train.

(** [InScopeFilterNet.preprocess]: the product and the reaction fingerprints
    of a batch of (product, rule) pairs, stacked side by side. *)
Definition np_hstack (a b : ndarray) : ndarray := zip_with app a b.

Definition InScopeFilterNet_preprocess (tk : Toolkit)
    (prod_fp_dim react_fp_dim : nat) (X : list (string * string))
  : result ndarray :=
  let? mols := unzip X in
  let '(prod_mols, react_mols) := mols in
  let? prod_fps := fingerprint_mols tk prod_mols prod_fp_dim in
  let? react_fps := fingerprint_reactions tk react_mols react_fp_dim in
  Ok (np_hstack prod_fps react_fps).

(** ** Loops that draw from the generator

    [while_fuel] unfolds a [while] loop at most [fuel] times.  The loops of
    the script draw at least once per iteration, so [S (length g)] unfoldings
    are never used up ([while_fuel_enough]): a run stops because the
    condition fails, an exception is raised, or the draws run out. *)
Fixpoint while_fuel {St} (fuel : nat) (cond : St → bool) (body : St → M St)
    (s : St) : M St :=
  if cond s then
    match fuel with
    | 0 => λ _, Starved
    | S fuel' => s' <- body s;; while_fuel fuel' cond body s'
    end
  else ret s.

Definition while {St} (cond : St → bool) (body : St → M St) (s : St)
  : M St :=
  λ g, while_fuel (S (length g)) cond body s g.

(** ** The script under [if __name__ == '__main__']

    The files are read by the caller: the script starts from the three
    dictionaries it loads, each in its iteration order. *)

(** [k in d] and [list(d.keys())] *)
Definition keys {V} (d : list (string * V)) : list string := d.*1.

(** [d[k]] *)
Fixpoint dict_get {V} (k : string) (d : list (string * V)) : result V :=
  match d with
  | [] => Raise KeyError
  | (k', v) :: d' => if String.eqb k k' then Ok v else dict_get k d'
  end.

(** [rules = [r for r in rules if r in d]] *)
Definition rules_in {V} (d : list (string * V)) (rules : list string)
  : list string :=
  filter (λ r, r ∈ keys d) rules.

(** [rule_groups[r].append(prod)] on a [defaultdict(list)] *)
Fixpoint group_append (r prod : string) (groups : list (string * list string))
  : list (string * list string) :=
  match groups with
  | [] => [(r, [prod])]
  | (r', prods) :: groups' =>
      if String.eqb r r' then (r', prods ++ [prod]) :: groups'
      else (r', prods) :: group_append r prod groups'
  end.

(** [rule_groups[a]] for a key of the dictionary *)
Definition group_get (a : string) (groups : list (string * list string))
  : list string :=
  match dict_get a groups with
  | Ok prods => prods
  | Raise _ => []
  end.

(** The module-level name [r] is bound by three [for r in rules] loops and
    read once, in the negative sampling; it is carried along as [Some] of its
    value, [None] while unbound. *)

(** Lines 232-237: the products of every expansion rule. *)
Definition rule_groups_item {V} (expansion_rules : list (string * V))
    (st : list (string * list string) * option string)
    (item : string * list string)
  : list (string * list string) * option string :=
  let '(prod, rules) := item in
  let rules := rules_in expansion_rules rules in
  match rules with
  | [] => st
  | _ :: _ => foldl (λ st r, (group_append r prod st.1, Some r)) st rules
  end.

Definition build_rule_groups {V} (prod_to_rules : list (string * list string))
    (expansion_rules : list (string * V))
  : list (string * list string) * option string :=
  foldl (rule_groups_item expansion_rules) ([], None) prod_to_rules.

(** Lines 239-251.  The similarities are floating-point numbers that nothing
    reads afterwards: [sims] is kept as the index pairs it has an entry for,
    [all_sims] as its length. *)
Definition sims_pairs (n : nat) : list (nat * nat) :=
  i ← seq 0 n; j ← seq 0 n; if decide (i = j) then [] else [(i, j)].

Fixpoint all_sims_loop (tk : Toolkit) (groups : list (string * list string))
    (all_sims : nat) : result nat :=
  match groups with
  | [] => Ok all_sims
  | (rule, prods) :: groups' =>
      let? fprs := fingerprint_mols tk prods 10000 in
      let sims := sims_pairs (length fprs) in
      match sims with
      | [] => all_sims_loop tk groups' all_sims
      | _ :: _ => all_sims_loop tk groups' (all_sims + 1)
      end
  end.

(** Lines 255-263, the body of [while len(notsims) < 10000]; the state is
    [len(notsims)]. *)
Definition notsims_body (tk : Toolkit) (rules : list string)
    (rule_groups : list (string * list string)) (notsims : nat) : M nat :=
  a <- choice rules;;
  b <- choice rules;;
  if String.eqb a b then ret notsims
  else
    p_a <- choice (group_get a rule_groups);;
    p_b <- choice (group_get b rule_groups);;
    fprs <- lift (fingerprint_mols tk [p_a; p_b] 10000);;
    match fprs !! 0, fprs !! 1 with
    | Some _, Some _ => ret (notsims + 1)
    | _, _ => raise IndexError
    end.

(** Lines 293-303: the rollout dataset. *)
Record rollout_data : Type := {
  rd_X : list string;
  rd_y : list nat;
  rd_r : option string;
}.

Fixpoint rollout_rules_loop (rollout_rules : list (string * nat))
    (prod : string) (rules : list string) (st : rollout_data)
  : result rollout_data :=
  match rules with
  | [] => Ok st
  | r :: rules' =>
      let? id := dict_get r rollout_rules in
      rollout_rules_loop rollout_rules prod rules'
        {| rd_y := rd_y st ++ [id]; rd_X := rd_X st ++ [prod];
           rd_r := Some r |}
  end.

Fixpoint rollout_dataset (prod_to_rules : list (string * list string))
    (rollout_rules : list (string * nat)) (st : rollout_data)
  : result rollout_data :=
  match prod_to_rules with
  | [] => Ok st
  | (prod, rules) :: items =>
      let rules := rules_in rollout_rules rules in
      match rules with
      | [] => rollout_dataset items rollout_rules st
      | _ :: _ =>
          let? st' := rollout_rules_loop rollout_rules prod rules st in
          rollout_dataset items rollout_rules st'
      end
  end.

(** Lines 316-344: the dataset of the in-scope filter.  [X], [y] and
    [exists] are the script's variables of these names, [r] the loop variable
    left behind by the last [for r in rules]. *)
Record dataset : Type := {
  ds_X : list (string * string);
  ds_y : list nat;
  ds_exists : gset string;
  ds_r : option string;
}.

(** ['{}_{}'.format(prod, r)] *)
Definition key_of (prod r : string) : string := prod +:+ "_" +:+ r.

(** Lines 324-326, the body of [for r in rules]. *)
Definition positive_body (prod : string) (st : dataset) (r : string)
  : dataset :=
  {| ds_y := ds_y st ++ [1];
     ds_X := ds_X st ++ [(prod, r)];
     ds_exists := {[key_of prod r]} ∪ ds_exists st;
     ds_r := Some r |}.

(** Lines 320-326, the body of [for prod, rules in prod_to_rules.items()]. *)
Definition positives_item {V} (expansion_rules : list (string * V))
    (st : dataset) (item : string * list string) : dataset :=
  let '(prod, rules) := item in
  let rules := rules_in expansion_rules rules in
  match rules with
  | [] => st
  | _ :: _ => foldl (positive_body prod) st rules
  end.

(** [X, y = [], []; exists = set()] *)
Definition empty_dataset (r : option string) : dataset :=
  {| ds_X := []; ds_y := []; ds_exists := ∅; ds_r := r |}.

Definition positives {V} (prod_to_rules : list (string * list string))
    (expansion_rules : list (string * V)) (r : option string) : dataset :=
  foldl (positives_item expansion_rules) (empty_dataset r) prod_to_rules.

(** [len(X) < target_size] *)
Definition below_target (target_size : nat) (st : dataset) : bool :=
  length (ds_X st) <? target_size.

(** Lines 334-343, the body of [while len(X) < target_size]. *)
Definition negative_body (prods exprules : list string) (st : dataset)
  : M dataset :=
  prod <- choice prods;;
  rule <- choice exprules;;
  match ds_r st with
  | None => raise NameError
  | Some r =>
      let key := key_of prod r in
      if decide (key ∈ ds_exists st) then ret st
      else
        ret {| ds_y := ds_y st ++ [0];
               ds_X := ds_X st ++ [(prod, rule)];
               ds_exists := ds_exists st;
               ds_r := ds_r st |}
  end.

Definition inscope_dataset {V} (prod_to_rules : list (string * list string))
    (expansion_rules : list (string * V)) (r : option string) : M dataset :=
  let st := positives prod_to_rules expansion_rules r in
  let target_size := length (ds_X st) * 2 in
  let prods := keys prod_to_rules in
  let exprules := keys expansion_rules in
  while (below_target target_size) (negative_body prods exprules) st.

(** The three networks of the module, and what the script does with them. *)
Inductive net : Set :=
| RolloutPolicyNet
| ExpansionPolicyNet
| InScopeFilterNet.

Inductive event : Type :=
| Built (n : net)
| Trained (n : net) (log : list (epoch_log (string * string) nat)).

Definition trained (events : list event) : list net :=
  omap (λ e, match e with
             | Built _ => None
             | Trained n _ => Some n
             end) events.

Definition main (tk : Toolkit) (prod_to_rules : list (string * list string))
    (rollout_rules expansion_rules : list (string * nat)) : M (list event) :=
  let '(rule_groups, r) := build_rule_groups prod_to_rules expansion_rules in
  all_sims <- lift (all_sims_loop tk rule_groups 0);;
  let rules := keys rule_groups in
  notsims <- while (λ notsims, notsims <? 10000)
               (notsims_body tk rules rule_groups) 0;;
  (* Build models *)
  let rollout := Built RolloutPolicyNet in
  let filter := Built InScopeFilterNet in
  (* Rollout training: the dataset is built, the call of train is commented
     out *)
  rollout_set <- lift (rollout_dataset prod_to_rules rollout_rules
                         {| rd_X := []; rd_y := []; rd_r := r |});;
  let r := rd_r rollout_set in
  (* In-Scope Filter training *)
  st <- inscope_dataset prod_to_rules expansion_rules r;;
  log <- train (InScopeFilterNet_preprocess tk 16384 2048)
           (ds_X st) (ds_y st) 512 3;;
  ret [rollout; filter; Trained InScopeFilterNet log].

(** ** Vocabulary of the statements *)

(** The states a [while] loop passes through at its head, started from [s]
    with the generator [g]. *)
Inductive while_visits {St} (cond : St → bool) (body : St → M St)
  : St → rng → St → Prop :=
| visits_here (s : St) (g : rng) : while_visits cond body s g s
| visits_next (s s1 s' : St) (g g1 : rng) :
    cond s = true →
    body s g = Done s1 g1 →
    while_visits cond body s1 g1 s' →
    while_visits cond body s g s'.

(** The (product, rule) pairs the positives loop appends, in order. *)
Definition positive_pairs {V} (prod_to_rules : list (string * list string))
    (expansion_rules : list (string * V)) : list (string * string) :=
  item ← prod_to_rules;
  (λ r, (item.1, r)) <$> rules_in expansion_rules item.2.

(** [len(X) == len(y)] *)
Definition aligned (st : dataset) : Prop :=
  length (ds_X st) = length (ds_y st).

(** The number of examples labelled [l]. *)
Definition count_label (l : nat) (y : list nat) : nat :=
  length (filter (λ l', l' = l) y).

(** ** Sample inputs of the script

    Two products with one expansion rule each, and draws that let the script
    run to its end: 10000 rounds of the similarity sampling with two distinct
    rules, two rounds of negative sampling, three shuffles of four
    examples. *)
Definition sample_prod_to_rules : list (string * list string) :=
  [("CCO", ["[C:1]>>[C:1]O"]); ("CC", ["[C:1]>>[C:1]C"])]%string.

Definition sample_expansion_rules : list (string * nat) :=
  [("[C:1]>>[C:1]O", 0); ("[C:1]>>[C:1]C", 1)]%string.

Definition sample_rollout_rules : list (string * nat) :=
  [("[C:1]>>[C:1]O", 0)]%string.

Definition sample_draws : list nat :=
  concat (replicate 10000 [0; 1; 0; 0])
  ++ [0; 0; 0; 1] ++ [0; 1; 2; 3; 0; 1; 2; 3; 0].

(** ** The input of the in-scope filter

    [self.X_prod = self.X[:, :product_fp_dim]] and
    [self.X_react = self.X[:, product_fp_dim:]]: the columns of the product
    branch and of the reaction branch. *)
Definition X_prod {A} (product_fp_dim : nat) (X : list (list A))
  : list (list A) :=
  (λ row : list A, take product_fp_dim row) <$> X.

Definition X_react {A} (product_fp_dim : nat) (X : list (list A))
  : list (list A) :=
  (λ row : list A, drop product_fp_dim row) <$> X.

(** * Properties *)

(** ** Facts about [GetOnBits] and row assignment *)

Lemma on_bits_from_spec (fp : BitVect) (i j : nat) :
  j ∈ on_bits_from i fp ↔ ∃ k, j = i + k ∧ fp !! k = Some true.
Proof.
  revert i. induction fp as [|b fp IH]; intros i; simpl.
  - split; [intros H; by apply not_elem_of_nil in H | intros (k & _ & H); done].
  - rewrite elem_of_app, IH. split.
    + intros [H | (k & -> & Hk)].
      * destruct b; [|by apply not_elem_of_nil in H].
        apply list_elem_of_singleton in H as ->.
        exists 0. split; [lia | done].
      * exists (S k). split; [lia | done].
    + intros (k & -> & Hk). destruct k as [|k]; simpl in Hk.
      * left. injection Hk as ->. replace (i + 0) with i by lia.
        by apply list_elem_of_singleton.
      * right. exists k. split; [lia | done].
Qed.

Lemma GetOnBits_spec (fp : BitVect) (j : nat) :
  j ∈ GetOnBits fp ↔ fp !! j = Some true.
Proof.
  unfold GetOnBits. rewrite on_bits_from_spec. split.
  - by intros (k & -> & Hk).
  - intros H. by exists j.
Qed.

Lemma GetOnBits_bound (fp : BitVect) :
  forallb (λ j, j <? length fp) (GetOnBits fp) = true.
Proof.
  apply forallb_forall. intros j Hj.
  apply list_elem_of_In, GetOnBits_spec, lookup_lt_Some in Hj.
  by apply Nat.ltb_lt.
Qed.

Lemma length_set_bits (js : list nat) (row : list bool) :
  length (set_bits row js) = length row.
Proof.
  unfold set_bits. revert row.
  induction js as [|j js IH]; intros row; simpl; [done|].
  by rewrite IH, length_insert.
Qed.

Lemma lookup_set_bits (js : list nat) (row : list bool) (k : nat) :
  k < length row →
  set_bits row js !! k =
    if bool_decide (k ∈ js) then Some true else row !! k.
Proof.
  unfold set_bits. revert row.
  induction js as [|j js IH]; intros row Hk.
  - rewrite bool_decide_eq_false_2; [done | apply not_elem_of_nil].
  - change (foldl (λ r j0, <[j0:=true]> r) row (j :: js))
      with (foldl (λ r j0, <[j0:=true]> r) (<[j:=true]> row) js).
    rewrite IH by (by rewrite length_insert).
    destruct (decide (k ∈ js)) as [H1 | H1].
    + rewrite !bool_decide_eq_true_2; [done | by right | done].
    + rewrite (bool_decide_eq_false_2 _ H1).
      destruct (decide (k = j)) as [-> | Hne].
      * rewrite bool_decide_eq_true_2 by (by left).
        by apply list_lookup_insert_eq.
      * rewrite bool_decide_eq_false_2.
        -- by rewrite list_lookup_insert_ne.
        -- intros [? | ?]%elem_of_cons; done.
Qed.

(** Setting the on-bits of [fp] in a zero row of the same width rebuilds
    [fp]. *)
Lemma set_bits_zeros (fp : BitVect) :
  set_bits (replicate (length fp) false) (GetOnBits fp) = fp.
Proof.
  apply list_eq. intros k.
  destruct (decide (k < length fp)) as [Hk | Hk].
  - rewrite lookup_set_bits by (by rewrite length_replicate).
    case_bool_decide as H.
    + by apply GetOnBits_spec in H.
    + rewrite lookup_replicate_2 by done.
      destruct (lookup_lt_is_Some_2 fp k Hk) as [b Hb].
      rewrite Hb. destruct b; [|done].
      exfalso. by apply H, GetOnBits_spec.
  - rewrite !lookup_ge_None_2; [done | lia |].
    rewrite length_set_bits, length_replicate. lia.
Qed.

(** ** [fps_to_arr] on fingerprints of one width *)

Lemma assign_row_zero (pre : ndarray) (fp : BitVect) (post : ndarray) :
  assign_row (pre ++ replicate (length fp) false :: post) (length pre)
    (GetOnBits fp) = Ok (pre ++ fp :: post).
Proof.
  unfold assign_row.
  rewrite list_lookup_middle by done.
  rewrite length_replicate, GetOnBits_bound.
  rewrite insert_app_r_alt, Nat.sub_diag by done.
  simpl. by rewrite set_bits_zeros.
Qed.

(** Loop invariant: the rows before [i] hold the fingerprints already
    visited, the rows from [i] on are still zero. *)
Lemma fps_to_arr_loop_rows (d : nat) (rest : list BitVect) (pre : ndarray) :
  Forall (λ fp, length fp = d) rest →
  fps_to_arr_loop (length pre) rest
    (pre ++ replicate (length rest) (replicate d false)) = Ok (pre ++ rest).
Proof.
  intros Hall. revert pre.
  induction Hall as [|fp rest Hfp _ IH]; intros pre; simpl.
  - done.
  - rewrite <- Hfp, assign_row_zero. simpl.
    specialize (IH (pre ++ [fp])).
    rewrite length_app, Nat.add_1_r, <- !app_assoc in IH.
    by rewrite Hfp.
Qed.

Lemma fps_to_arr_same_width (fp0 : BitVect) (fps : list BitVect) :
  Forall (λ fp, length fp = length fp0) fps →
  fps_to_arr (fp0 :: fps) = Ok (fp0 :: fps).
Proof.
  intros Hall. unfold fps_to_arr, np_zeros.
  apply (fps_to_arr_loop_rows (length fp0) (fp0 :: fps) []).
  by constructor.
Qed.

(** C8: [fps_to_arr] raises on the empty list instead of returning an empty
    array; on a non-empty list of fingerprints of one width it returns an
    array with one row per fingerprint and one column per bit of the first
    fingerprint, whose entry [(i, j)] is 1 exactly when bit [j] of
    fingerprint [i] is on. *)
Theorem fps_to_arr_nonempty_only :
  fps_to_arr [] = Raise IndexError ∧
  ∀ (fp0 : BitVect) (fps : list BitVect),
    Forall (λ fp, length fp = length fp0) fps →
    ∃ arr : ndarray,
      fps_to_arr (fp0 :: fps) = Ok arr ∧
      length arr = length (fp0 :: fps) ∧
      Forall (λ row, length row = length fp0) arr ∧
      ∀ (i j : nat) (fp : BitVect),
        (fp0 :: fps) !! i = Some fp → j < length fp0 →
        ∃ b, entry arr i j = Some b ∧ (b = true ↔ fp !! j = Some true).
Proof.
  split; [done|].
  intros fp0 fps Hall. exists (fp0 :: fps).
  split; [by apply fps_to_arr_same_width|].
  split; [done|].
  assert (Hall' : Forall (λ fp : BitVect, length fp = length fp0) (fp0 :: fps))
    by (by constructor).
  split; [done|].
  intros i j fp Hi Hj. unfold entry. rewrite Hi. simpl.
  assert (Hlen : length fp = length fp0).
  { eapply Forall_lookup_1 in Hall'; [exact Hall' | exact Hi]. }
  destruct (lookup_lt_is_Some_2 fp j) as [b Hb]; [lia|].
  exists b. split; [done|]. rewrite Hb. split; congruence.
Qed.

Lemma fps_to_arr_nonempty_only_witness :
  ∃ arr : ndarray,
    fps_to_arr [[true; false; true]; [false; false; true]] = Ok arr ∧
    length arr = 2 ∧
    Forall (λ row, length row = 3) arr ∧
    ∀ (i j : nat) (fp : BitVect),
      [[true; false; true]; [false; false; true]] !! i = Some fp → j < 3 →
      ∃ b, entry arr i j = Some b ∧ (b = true ↔ fp !! j = Some true).
Proof.
  apply (proj2 fps_to_arr_nonempty_only [true; false; true]
           [[false; false; true]]).
  repeat constructor.
Defined.

(** ** Fingerprint widths *)

Section FingerprintFacts.
Variable tk : Toolkit.



End FingerprintFacts.

Lemma sample_toolkit_morgan_nbits : morgan_nbits sample_toolkit.
Proof. intros m r n _. simpl. by rewrite length_insert, length_replicate. Qed.




(** ** Determinism of the featurization *)

Section RunFacts.
Variable morgan : string → nat → BitVect → Prop.
Hypothesis morgan_functional :
  ∀ s n fp1 fp2, morgan s n fp1 → morgan s n fp2 → fp1 = fp2.

End RunFacts.



Lemma preprocess_same (tk : Toolkit) (fp_dim : nat) (X : list string) :
  ExpansionPolicyNet_preprocess tk fp_dim X =
  RolloutPolicyNet_preprocess tk fp_dim X.
Proof. reflexivity. Qed.



(** ** The shuffle *)

Lemma length_swap {A} (x : list A) (i j : nat) :
  length (swap x i j) = length x.
Proof.
  unfold swap. destruct (x !! i), (x !! j); try done.
  by rewrite !length_insert.
Qed.

Lemma swap_Permutation {A} (x : list A) (i j : nat) : swap x i j ≡ₚ x.
Proof.
  unfold swap.
  destruct (x !! i) as [a|] eqn:Hi; [|done].
  destruct (x !! j) as [b|] eqn:Hj; [|done].
  by apply Permutation_insert_swap.
Qed.

Lemma shuffle_from_Done {A} (i : nat) (x : list A) (g : rng) :
  i ≤ length g →
  ∃ x' g', shuffle_from i x g = Done x' g' ∧ x' ≡ₚ x ∧
           length g = i + length g'.
Proof.
  revert x g. induction i as [|i IH]; intros x g Hg.
  - by exists x, g.
  - destruct g as [|d g]; simpl in Hg; [lia|].
    cbn [shuffle_from]. unfold bind, randbelow.
    destruct (IH (swap x (S i) (d mod (S i + 1))) g) as (x' & g' & -> & Hp & Hl);
      [lia|].
    exists x', g'. split; [done|]. split; [|simpl; lia].
    by rewrite Hp, swap_Permutation.
Qed.

Lemma shuffle_Xy_Done {A L} (X : list A) (y : list L) (g : rng) :
  zip X y ≠ [] →
  length (zip X y) - 1 ≤ length g →
  ∃ X' y' g', shuffle_Xy X y g = Done (X', y') g' ∧
              zip X' y' ≡ₚ zip X y ∧
              length X' = length (zip X y) ∧ length y' = length (zip X y) ∧
              length g = (length (zip X y) - 1) + length g'.
Proof.
  intros Hne Hg. unfold shuffle_Xy, shuffle, bind.
  destruct (shuffle_from_Done (length (zip X y) - 1) (zip X y) g Hg)
    as (xy & g' & -> & Hp & Hl).
  assert (Hlen : length xy = length (zip X y)) by (by rewrite Hp).
  destruct xy as [|p xy].
  { destruct (zip X y); [done | simpl in Hlen; lia]. }
  exists ((p :: xy).*1), ((p :: xy).*2), g'. simpl.
  split; [done|]. split; [|by rewrite !length_fmap].
  change (zip (p :: xy).*1 (p :: xy).*2 ≡ₚ zip X y).
  by rewrite zip_fst_snd.
Qed.

(** ** Batches *)

Lemma ceil_div_spec (a b n : nat) :
  ceil_div a b = Ok n →
  0 < b ∧ a ≤ n * b ∧ (0 < a → (n - 1) * b < a).
Proof.
  unfold ceil_div. destruct (b =? 0) eqn:Hb; [done|].
  apply Nat.eqb_neq in Hb. intros [= <-].
  pose proof (Nat.div_mod_eq a b) as Hdm.
  pose proof (Nat.mod_upper_bound a b Hb) as Hlt.
  destruct (a mod b =? 0) eqn:Hm.
  - apply Nat.eqb_eq in Hm. split; [lia|]. split; [nia|].
    intros Ha. destruct (a / b) as [|q] eqn:Hq; [nia|]. nia.
  - apply Nat.eqb_neq in Hm. split; [lia|]. split; [nia|].
    intros _. replace (a / b + 1 - 1) with (a / b) by lia. nia.
Qed.

Lemma ceil_div_Ok (a b : nat) : 0 < b → ∃ n, ceil_div a b = Ok n.
Proof.
  intros Hb. unfold ceil_div.
  replace (b =? 0) with false by (symmetry; apply Nat.eqb_neq; lia).
  by eexists.
Qed.

Lemma slice_width {B} (Z : list B) (l w : nat) :
  slice Z l (l + w) = take w (drop l Z).
Proof. unfold slice. by replace (l + w - l) with w by lia. Qed.



Section EpochFacts.
Context {A L : Type}.
Variables (X : list A) (y : list L) (bs steps : nat).
Hypothesis Hy : length y = length X.
Hypothesis Hbs : 0 < bs.
Hypothesis Hup : length X ≤ steps * bs.
Hypothesis Hlow : (steps - 1) * bs < length X.






Lemma batch_nonempty (i : nat) : i < steps → (batch_at bs X y i).1 ≠ [].
Proof.
  intros Hi Hnil. apply (f_equal length) in Hnil. revert Hnil.
  unfold batch_at. simpl.
  rewrite !slice_width, !length_take, !length_drop. nia.
Qed.

Lemma batch_elem_of (i : nat) (x : A) : x ∈ (batch_at bs X y i).1 → x ∈ X.
Proof.
  unfold batch_at, slice. simpl.
  intros Hx. eapply subseteq_drop, subseteq_take, Hx.
Qed.
End EpochFacts.

(** The steps of an epoch all run when [preprocess] accepts their batches. *)
Lemma train_steps_Ok {A L F} (preprocess : list A → result F)
    (steps : list nat) (bs : nat) (X : list A) (y : list L)
    (acc : list (list A * list L)) :
  Forall (λ i, ∃ f, preprocess (batch_at bs X y i).1 = Ok f) steps →
  train_steps preprocess steps bs X y acc
  = Ok (acc ++ (batch_at bs X y <$> steps)).
Proof.
  intros Hall. revert acc.
  induction Hall as [|i steps [f Hf] _ IH]; intros acc.
  - simpl. by rewrite app_nil_r.
  - cbn [train_steps]. rewrite fmap_cons.
    destruct (batch_at bs X y i) as [Xb yb] eqn:Hb.
    simpl in Hf. rewrite Hf. simpl. rewrite IH.
    by rewrite <- app_assoc.
Qed.

(** ** Epochs *)

Lemma train_epochs_Done {A L F} (preprocess : list A → result F)
    (steps bs epochs : nat) (X : list A) (y : list L)
    (log : list (epoch_log A L)) (g : rng) :
  zip X y ≠ [] →
  (∀ X' y', zip X' y' ≡ₚ zip X y →
     length X' = length (zip X y) → length y' = length (zip X y) →
     train_steps preprocess (seq 0 steps) bs X' y' []
     = Ok (batch_at bs X' y' <$> seq 0 steps)) →
  epochs * (length (zip X y) - 1) ≤ length g →
  ∃ eps g',
    train_epochs preprocess epochs steps bs X y log g = Done (log ++ eps) g' ∧
    length eps = epochs ∧
    Forall (λ ep,
      zip (shuffled_X ep) (shuffled_y ep) ≡ₚ zip X y ∧
      length (shuffled_X ep) = length (zip X y) ∧
      length (shuffled_y ep) = length (zip X y) ∧
      fed ep = (batch_at bs (shuffled_X ep) (shuffled_y ep) <$> seq 0 steps))
      eps.
Proof.
  revert X y log g.
  induction epochs as [|epochs IH]; intros X y log g Hne Hsteps Hg.
  - exists [], g. by rewrite app_nil_r.
  - rewrite Nat.mul_succ_l in Hg.
    remember (length (zip X y) - 1) as k eqn:Hk.
    destruct (shuffle_Xy_Done X y g Hne) as (X' & y' & g1 & Hs & Hp & HX & Hy & Hl);
      [lia|].
    cbn [train_epochs]. unfold bind at 1. rewrite Hs.
    rewrite (Hsteps X' y' Hp HX Hy). unfold bind at 1. simpl lift.
    unfold ret at 1.
    assert (Hlen : length (zip X' y') = length (zip X y)) by (by rewrite Hp).
    assert (Hne' : zip X' y' ≠ []).
    { intros Hnil. rewrite Hnil in Hlen. destruct (zip X y); [done|]. done. }
    set (ep := {| shuffled_X := X'; shuffled_y := y';
                  fed := batch_at bs X' y' <$> seq 0 steps |}).
    destruct (IH X' y' (log ++ [ep]) g1 Hne') as (eps & g' & Hrun & Hn & Hall).
    { intros X2 y2 Hp2 HX2 Hy2. rewrite Hlen in HX2, Hy2.
      apply Hsteps; [by rewrite Hp2 | done..]. }
    { rewrite Hlen, <- Hk. lia. }
    exists (ep :: eps), g'. split.
    { rewrite Hrun. by rewrite <- app_assoc. }
    split; [simpl; lia|].
    constructor.
    + by subst ep.
    + eapply Forall_impl; [exact Hall|]. simpl.
      intros e (H1 & H2 & H3 & H4). rewrite Hlen in H2, H3.
      split; [by rewrite H1|]. done.
Qed.

(** With an aligned, non-empty dataset every step of an epoch gets a
    non-empty batch of examples of the dataset. *)
Lemma train_steps_aligned {A L F} (preprocess : list A → result F)
    (steps bs : nat) (X X' : list A) (y y' : list L) :
  length y = length X → 0 < bs →
  length X ≤ steps * bs → (steps - 1) * bs < length X →
  (∀ b, b ≠ [] → (∀ x, x ∈ b → x ∈ X) → ∃ f, preprocess b = Ok f) →
  zip X' y' ≡ₚ zip X y →
  length X' = length (zip X y) → length y' = length (zip X y) →
  train_steps preprocess (seq 0 steps) bs X' y' []
  = Ok (batch_at bs X' y' <$> seq 0 steps).
Proof.
  intros Hy Hbs Hup Hlow Hpre Hp HX' Hy'.
  assert (Hzip : length (zip X y) = length X) by (rewrite length_zip; lia).
  rewrite Hzip in HX', Hy'.
  apply (train_steps_Ok preprocess (seq 0 steps) bs X' y' []).
  apply Forall_forall. intros i Hi%elem_of_seq.
  apply Hpre.
  - apply (batch_nonempty X' y' bs steps); lia.
  - intros x Hx%batch_elem_of.
    assert (HXp : X' ≡ₚ X).
    { rewrite <- (fst_zip X' y'), <- (fst_zip X y) by lia. by rewrite Hp. }
    by rewrite <- HXp.
Qed.



(** C10: the shuffle of an epoch moves examples and labels together: in every
    epoch of [train], the pairs (example, label) of the shuffled [(X, y)] are
    a permutation of the pairs of the [(X, y)] that was passed in, so the
    multiset of pairs never changes and no example changes its label. *)
Theorem shuffle_keeps_pairs {A L F} (preprocess : list A → result F)
    (X : list A) (y : list L) (batch_size epochs : nat) (g : rng) :
  0 < length X → length y = length X → 0 < batch_size →
  (∀ b, b ≠ [] → (∀ x, x ∈ b → x ∈ X) → ∃ f, preprocess b = Ok f) →
  epochs * (length X - 1) ≤ length g →
  ∃ (log : list (epoch_log A L)) (g' : rng),
    train preprocess X y batch_size epochs g = Done log g' ∧
    length log = epochs ∧
    Forall (λ ep, zip (shuffled_X ep) (shuffled_y ep) ≡ₚ zip X y) log.
Proof.
  intros HX Hy Hbs Hpre Hg.
  destruct (ceil_div_Ok (length X) batch_size Hbs) as [n_steps Hn].
  destruct (ceil_div_spec _ _ _ Hn) as (_ & Hup & Hlow).
  specialize (Hlow HX).
  assert (Hzip : length (zip X y) = length X) by (rewrite length_zip; lia).
  assert (Hne : zip X y ≠ []).
  { intros Hnil. rewrite Hnil in Hzip. simpl in Hzip. lia. }
  destruct (train_epochs_Done preprocess n_steps batch_size epochs X y [] g Hne)
    as (log & g' & Hrun & Hlen & Hall).
  { intros X' y'. by apply train_steps_aligned. }
  { by rewrite Hzip. }
  exists log, g'.
  split. { unfold train, bind. rewrite Hn. simpl. exact Hrun. }
  split; [done|].
  eapply Forall_impl; [exact Hall|]. by intros ep (Hp & _).
Qed.

Lemma shuffle_keeps_pairs_witness :
  ∃ (log : list (epoch_log string nat)) (g' : rng),
    train (λ b : list string, Ok b) ["CCO"; "CC"; "CCC"]%string [7; 8; 9] 2 2
      [0; 1; 2; 0] = Done log g' ∧
    length log = 2 ∧
    Forall (λ ep, zip (shuffled_X ep) (shuffled_y ep) ≡ₚ
                  [("CCO", 7); ("CC", 8); ("CCC", 9)]%string) log.
Proof.
  apply (shuffle_keeps_pairs (λ b : list string, Ok b)
           ["CCO"; "CC"; "CCC"]%string [7; 8; 9] 2 2 [0; 1; 2; 0]);
    [simpl; lia | done | lia | by eexists | simpl; lia].
Defined.

(** ** Loops that draw from the generator *)

Lemma choice_Done {A} (seq : list A) (g g' : rng) (x : A) :
  choice seq g = Done x g' → ∃ d, g = d :: g' ∧ x ∈ seq.
Proof.
  unfold choice. destruct seq as [|a seq]; [done|].
  unfold bind, randbelow. destruct g as [|d g]; [done|].
  destruct ((a :: seq) !! (d mod length (a :: seq))) as [x'|] eqn:Hx; [|done].
  intros [= <- <-]. exists d. split; [done|].
  by eapply list_elem_of_lookup_2.
Qed.

Lemma choice_nonempty {A} (seq : list A) (d : nat) (g : rng) :
  seq ≠ [] → ∃ x, choice seq (d :: g) = Done x g ∧ x ∈ seq.
Proof.
  intros Hne. unfold choice. destruct seq as [|a seq]; [done|].
  unfold bind, randbelow.
  destruct (lookup_lt_is_Some_2 (a :: seq) (d mod length (a :: seq)))
    as [x Hx].
  { apply Nat.mod_upper_bound. simpl. lia. }
  rewrite Hx. exists x. split; [done|]. by eapply list_elem_of_lookup_2.
Qed.

(** The unfoldings allowed do not matter once they exceed the draws left. *)
Lemma while_fuel_enough {St} (cond : St → bool) (body : St → M St)
    (fuel1 fuel2 : nat) (s : St) (g : rng) :
  (∀ s g s' g', body s g = Done s' g' → length g' < length g) →
  length g < fuel1 → length g < fuel2 →
  while_fuel fuel1 cond body s g = while_fuel fuel2 cond body s g.
Proof.
  intros Hdraw. revert fuel2 s g.
  induction fuel1 as [|fuel1 IH]; intros fuel2 s g H1 H2; [lia|].
  destruct fuel2 as [|fuel2]; [lia|].
  simpl. destruct (cond s); [|done].
  unfold bind. destruct (body s g) as [s' g'| |] eqn:Hb; [|done..].
  apply Hdraw in Hb. apply IH; lia.
Qed.

Lemma while_fuel_visits {St} (cond : St → bool) (body : St → M St)
    (fuel : nat) (s s' : St) (g g' : rng) :
  while_fuel fuel cond body s g = Done s' g' →
  while_visits cond body s g s' ∧ cond s' = false.
Proof.
  revert s g. induction fuel as [|fuel IH]; intros s g; simpl.
  - destruct (cond s) eqn:Hc; [done|].
    intros [= <- <-]. split; [constructor | done].
  - destruct (cond s) eqn:Hc.
    + unfold bind. destruct (body s g) as [s1 g1| |] eqn:Hb; [|done..].
      intros [Hv Hf]%IH. split; [|done]. by econstructor.
    + intros [= <- <-]. split; [constructor | done].
Qed.

Lemma while_visits_inv {St} (P : St → Prop) (cond : St → bool)
    (body : St → M St) (s s' : St) (g : rng) :
  (∀ s g s' g', P s → cond s = true → body s g = Done s' g' → P s') →
  P s → while_visits cond body s g s' → P s'.
Proof.
  intros Hstep Hs Hv. induction Hv as [|s s1 s' g g1 Hc Hb _ IH]; [done|].
  apply IH. by eapply Hstep.
Qed.

(** Both loops of the script draw in every iteration that ends, so the bound
    on their unfoldings in [while] is never what stops them. *)
Lemma negative_body_draws (prods exprules : list string) (st st' : dataset)
    (g g' : rng) :
  negative_body prods exprules st g = Done st' g' → length g' < length g.
Proof.
  unfold negative_body, bind.
  destruct (choice prods g) as [prod g1| |] eqn:Hp; [|done..].
  destruct (choice exprules g1) as [rule g2| |] eqn:Hr; [|done..].
  apply choice_Done in Hp as (d1 & -> & _).
  apply choice_Done in Hr as (d2 & -> & _).
  destruct (ds_r st) as [r|]; [|done].
  destruct (decide _); intros [= <- <-]; simpl; lia.
Qed.

Lemma notsims_body_draws (tk : Toolkit) (rules : list string)
    (rule_groups : list (string * list string)) (n n' : nat) (g g' : rng) :
  notsims_body tk rules rule_groups n g = Done n' g' → length g' < length g.
Proof.
  unfold notsims_body, bind.
  destruct (choice rules g) as [a g1| |] eqn:Ha; [|done..].
  destruct (choice rules g1) as [b g2| |] eqn:Hb; [|done..].
  apply choice_Done in Ha as (d1 & -> & _).
  apply choice_Done in Hb as (d2 & -> & _).
  destruct (String.eqb a b).
  { intros [= <- <-]. simpl. lia. }
  destruct (choice (group_get a rule_groups) g2) as [p_a g3| |] eqn:Hpa;
    [|done..].
  destruct (choice (group_get b rule_groups) g3) as [p_b g4| |] eqn:Hpb;
    [|done..].
  apply choice_Done in Hpa as (d3 & -> & _).
  apply choice_Done in Hpb as (d4 & -> & _).
  destruct (lift (fingerprint_mols tk [p_a; p_b] 10000) g4)
    as [fprs g5| |] eqn:Hf; [|done..].
  assert (g5 = g4) as ->.
  { unfold lift in Hf.
    destruct (fingerprint_mols tk [p_a; p_b] 10000); [|done].
    by injection Hf as _ <-. }
  destruct (fprs !! 0); [|done]. destruct (fprs !! 1); [|done].
  intros [= <- <-]. simpl. lia.
Qed.

Lemma while_any_fuel {St} (cond : St → bool) (body : St → M St)
    (fuel : nat) (s : St) (g : rng) :
  (∀ s g s' g', body s g = Done s' g' → length g' < length g) →
  length g < fuel →
  while_fuel fuel cond body s g = while cond body s g.
Proof.
  intros Hdraw Hfuel. unfold while.
  apply while_fuel_enough; [done | done | lia].
Qed.

(** ** The dataset of the in-scope filter *)

Lemma positives_item_flat {V} (expansion_rules : list (string * V))
    (st : dataset) (item : string * list string) :
  positives_item expansion_rules st item
  = foldl (λ st p, positive_body p.1 st p.2) st
      ((λ r, (item.1, r)) <$> rules_in expansion_rules item.2).
Proof.
  destruct item as [prod rules]. unfold positives_item. simpl.
  rewrite foldl_fmap. simpl.
  by destruct (rules_in expansion_rules rules).
Qed.

Lemma positives_flat {V} (prod_to_rules : list (string * list string))
    (expansion_rules : list (string * V)) (r : option string) :
  positives prod_to_rules expansion_rules r
  = foldl (λ st p, positive_body p.1 st p.2) (empty_dataset r)
      (positive_pairs prod_to_rules expansion_rules).
Proof.
  unfold positives, positive_pairs. generalize (empty_dataset r).
  induction prod_to_rules as [|item items IH]; intros st; [done|].
  rewrite bind_cons, foldl_app. simpl foldl at 1.
  by rewrite IH, positives_item_flat.
Qed.

Lemma positive_fold_Xy (pairs : list (string * string)) (st : dataset) :
  let st' := foldl (λ st p, positive_body p.1 st p.2) st pairs in
  ds_X st' = ds_X st ++ pairs ∧
  ds_y st' = ds_y st ++ replicate (length pairs) 1.
Proof.
  revert st. induction pairs as [|[prod r] pairs IH]; intros st; simpl.
  - by rewrite !app_nil_r.
  - destruct (IH (positive_body prod st r)) as [-> ->]. simpl.
    by rewrite <- !app_assoc.
Qed.

Lemma count_label_replicate (l l' n : nat) :
  count_label l (replicate n l') = if decide (l' = l) then n else 0.
Proof.
  unfold count_label. induction n as [|n IH]; simpl.
  - by destruct (decide _).
  - destruct (decide (l' = l)) as [Heq | Hne].
    + rewrite filter_cons_True by done. simpl. by rewrite IH.
    + by rewrite filter_cons_False.
Qed.

Lemma count_label_app (l : nat) (y1 y2 : list nat) :
  count_label l (y1 ++ y2) = count_label l y1 + count_label l y2.
Proof. unfold count_label. by rewrite filter_app, length_app. Qed.

(** What the negative sampling keeps true: the labels are [n] ones followed
    by at most [n] zeros, with one example per label. *)
Lemma negative_body_keeps (n : nat) (prods exprules : list string)
    (st st' : dataset) (g g' : rng) :
  (∃ k, k ≤ n ∧ ds_y st = replicate n 1 ++ replicate k 0 ∧
        length (ds_X st) = n + k) →
  below_target (n * 2) st = true →
  negative_body prods exprules st g = Done st' g' →
  ∃ k, k ≤ n ∧ ds_y st' = replicate n 1 ++ replicate k 0 ∧
       length (ds_X st') = n + k.
Proof.
  intros (k & Hk & Hy & HX) Hc%Nat.ltb_lt. unfold negative_body, bind.
  unfold below_target in Hc.
  destruct (choice prods g) as [prod g1| |]; [|done..].
  destruct (choice exprules g1) as [rule g2| |]; [|done..].
  destruct (ds_r st) as [r|]; [|done].
  destruct (decide (key_of prod r ∈ ds_exists st)).
  - intros [= <- <-]. by exists k.
  - intros [= <- <-]. exists (S k). cbn [ds_X ds_y].
    split; [lia|]. split.
    + by rewrite Hy, <- app_assoc, replicate_S_end.
    + rewrite length_app. simpl. lia.
Qed.

(** C9: the dataset of the in-scope filter stays label-aligned and ends
    balanced.  The positives loop appends the pairs [positive_pairs] one by
    one, and after each of them [len(X) == len(y)]; the same holds every time
    the negative-sampling loop is at its head; and when that loop ends, the
    dataset has twice as many examples as there are positives, as many with
    label 0 as with label 1. *)
Theorem inscope_dataset_balanced {V}
    (prod_to_rules : list (string * list string))
    (expansion_rules : list (string * V)) (r : option string) (g : rng) :
  let st0 := positives prod_to_rules expansion_rules r in
  let n := length (ds_X st0) in
  st0 = foldl (λ st p, positive_body p.1 st p.2) (empty_dataset r)
          (positive_pairs prod_to_rules expansion_rules) ∧
  (∀ k, aligned (foldl (λ st p, positive_body p.1 st p.2) (empty_dataset r)
                   (take k (positive_pairs prod_to_rules expansion_rules)))) ∧
  (∀ st, while_visits (below_target (n * 2))
           (negative_body (keys prod_to_rules) (keys expansion_rules))
           st0 g st →
         aligned st) ∧
  (∀ st g', inscope_dataset prod_to_rules expansion_rules r g = Done st g' →
            length (ds_X st) = 2 * n ∧ length (ds_y st) = 2 * n ∧
            count_label 1 (ds_y st) = n ∧ count_label 0 (ds_y st) = n).
Proof.
  intros st0 n.
  assert (Hflat : st0 = foldl (λ st p, positive_body p.1 st p.2)
                          (empty_dataset r)
                          (positive_pairs prod_to_rules expansion_rules))
    by apply positives_flat.
  assert (Hstart : ∃ k, k ≤ n ∧ ds_y st0 = replicate n 1 ++ replicate k 0 ∧
                        length (ds_X st0) = n + k).
  { exists 0. split; [lia|]. split; [|lia].
    subst n. rewrite Hflat.
    destruct (positive_fold_Xy
                (positive_pairs prod_to_rules expansion_rules)
                (empty_dataset r)) as [-> ->].
    simpl. by rewrite app_nil_r. }
  assert (Hkeep : ∀ st, while_visits (below_target (n * 2))
                    (negative_body (keys prod_to_rules) (keys expansion_rules))
                    st0 g st →
                  ∃ k, k ≤ n ∧ ds_y st = replicate n 1 ++ replicate k 0 ∧
                       length (ds_X st) = n + k).
  { intros st.
    apply (while_visits_inv
             (λ st, ∃ k, k ≤ n ∧ ds_y st = replicate n 1 ++ replicate k 0 ∧
                         length (ds_X st) = n + k)); [|exact Hstart].
    intros s g1 s' g1' Hs Hc Hb. by eapply negative_body_keeps. }
  split; [exact Hflat|].
  split.
  { intros k. unfold aligned.
    destruct (positive_fold_Xy
                (take k (positive_pairs prod_to_rules expansion_rules))
                (empty_dataset r)) as [-> ->].
    simpl. by rewrite length_replicate. }
  split.
  { intros st (k & _ & Hy & HX)%Hkeep. unfold aligned.
    by rewrite HX, Hy, length_app, !length_replicate. }
  intros st g' Hrun. unfold inscope_dataset, while in Hrun.
  apply while_fuel_visits in Hrun as [Hv Hstop].
  apply Hkeep in Hv as (k & Hk & Hy & HX).
  unfold below_target in Hstop. apply Nat.ltb_ge in Hstop.
  change (n * 2 ≤ length (ds_X st)) in Hstop.
  assert (k = n) as -> by lia.
  rewrite Hy, length_app, !count_label_app, !count_label_replicate,
    !length_replicate.
  simpl. repeat split; lia.
Qed.

Lemma inscope_dataset_balanced_witness :
  ∃ st g',
    inscope_dataset sample_prod_to_rules sample_expansion_rules None
      [0; 0; 0; 1] = Done st g' ∧
    length (ds_X st) = 4 ∧ length (ds_y st) = 4 ∧
    count_label 1 (ds_y st) = 2 ∧ count_label 0 (ds_y st) = 2.
Proof.
  eexists _, _. split; [vm_compute; reflexivity|].
  apply (proj2 (proj2 (proj2 (inscope_dataset_balanced sample_prod_to_rules
                                sample_expansion_rules None [0; 0; 0; 1])))
           _ []).
  vm_compute. reflexivity.
Defined.

(** The membership test of the negative sampling reads [r], the rule left by
    the positives loop, not the rule just drawn: an example is appended
    exactly when [key_of prod r] is new, whatever [rule] is. *)
Lemma negative_body_tests_stale_rule (prods exprules : list string)
    (st st' : dataset) (g g' : rng) :
  negative_body prods exprules st g = Done st' g' →
  ∃ prod rule r,
    prod ∈ prods ∧ rule ∈ exprules ∧ ds_r st = Some r ∧
    ((key_of prod r ∈ ds_exists st ∧ st' = st) ∨
     (key_of prod r ∉ ds_exists st ∧
      ds_X st' = ds_X st ++ [(prod, rule)] ∧ ds_y st' = ds_y st ++ [0])).
Proof.
  unfold negative_body, bind.
  destruct (choice prods g) as [prod g1| |] eqn:Hp; [|done..].
  destruct (choice exprules g1) as [rule g2| |] eqn:Hr; [|done..].
  apply choice_Done in Hp as (? & _ & Hp).
  apply choice_Done in Hr as (? & _ & Hr).
  destruct (ds_r st) as [r|]; [|done].
  destruct (decide (key_of prod r ∈ ds_exists st)); intros [= <- <-];
    exists prod, rule, r; (do 3 (split; [done|])).
  - by left.
  - by right.
Qed.

(** C1, on the code: with two products of one rule each, the draw of the
    first product and the first rule is tested under the key of the first
    product and the second rule, which is new, and the pair is appended with
    label 0 although it is already in the dataset with label 1. *)
Theorem negative_sample_repeats_positive :
  ∃ st,
    inscope_dataset sample_prod_to_rules sample_expansion_rules None
      [0; 0; 0; 1] = Done st [] ∧
    ds_X st = [("CCO", "[C:1]>>[C:1]O"); ("CC", "[C:1]>>[C:1]C");
               ("CCO", "[C:1]>>[C:1]O"); ("CCO", "[C:1]>>[C:1]C")]%string ∧
    ds_y st = [1; 1; 0; 0] ∧
    key_of "CCO" "[C:1]>>[C:1]O" ∈ ds_exists st ∧
    (("CCO", "[C:1]>>[C:1]O")%string, 1) ∈ zip (ds_X st) (ds_y st) ∧
    (("CCO", "[C:1]>>[C:1]O")%string, 0) ∈ zip (ds_X st) (ds_y st).
Proof.
  eexists. split; [vm_compute; reflexivity|].
  cbn [ds_X ds_y ds_exists].
  split; [reflexivity|]. split; [reflexivity|].
  split; [by vm_compute|].
  split; [by left | by do 2 right; left].
Qed.

(** ** The script *)

Lemma main_events (tk : Toolkit) (prod_to_rules : list (string * list string))
    (rollout_rules expansion_rules : list (string * nat))
    (g g' : rng) (events : list event) :
  main tk prod_to_rules rollout_rules expansion_rules g = Done events g' →
  ∃ log, events = [Built RolloutPolicyNet; Built InScopeFilterNet;
                   Trained InScopeFilterNet log].
Proof.
  unfold main.
  destruct (build_rule_groups prod_to_rules expansion_rules) as [groups r].
  unfold bind.
  repeat match goal with
         | |- context [match ?m ?g0 with Done _ _ => _ | _ => _ end] =>
             destruct (m g0) as [? ?| |]; [|done..]
         end.
  intros [= <- <-]. by eexists.
Qed.

Lemma main_sample_completes :
  ∃ events g',
    main sample_toolkit sample_prod_to_rules sample_rollout_rules
      sample_expansion_rules sample_draws = Done events g'.
Proof. eexists _, _. vm_compute. reflexivity. Qed.

(** C4, as stated, fails: on the sample inputs the script runs to its end,
    and neither the rollout policy nor the expansion policy is among the
    networks it has trained. *)
Lemma main_leaves_two_networks_untrained :
  ∃ events g',
    main sample_toolkit sample_prod_to_rules sample_rollout_rules
      sample_expansion_rules sample_draws = Done events g' ∧
    RolloutPolicyNet ∉ trained events ∧
    ExpansionPolicyNet ∉ trained events.
Proof.
  destruct main_sample_completes as (events & g' & Hrun).
  exists events, g'. split; [exact Hrun|].
  apply main_events in Hrun as [log ->]. simpl.
  split; rewrite list_elem_of_singleton; discriminate.
Qed.

(** C4 (amended): when the script runs to its end it has built the rollout
    policy and the in-scope filter, and has run [train] once, for the
    in-scope filter; the rollout policy is built but not trained, the
    expansion policy is not built. *)
Theorem main_trains_filter_only (tk : Toolkit)
    (prod_to_rules : list (string * list string))
    (rollout_rules expansion_rules : list (string * nat))
    (g g' : rng) (events : list event) :
  main tk prod_to_rules rollout_rules expansion_rules g = Done events g' →
  trained events = [InScopeFilterNet] ∧
  ∃ log, events = [Built RolloutPolicyNet; Built InScopeFilterNet;
                   Trained InScopeFilterNet log].
Proof.
  intros [log ->]%main_events. split; [done|]. by exists log.
Qed.

Lemma main_trains_filter_only_witness :
  ∃ events g',
    main sample_toolkit sample_prod_to_rules sample_rollout_rules
      sample_expansion_rules sample_draws = Done events g' ∧
    trained events = [InScopeFilterNet].
Proof.
  destruct main_sample_completes as (events & g' & Hrun).
  exists events, g'. split; [exact Hrun|].
  exact (proj1 (main_trains_filter_only _ _ _ _ _ _ _ Hrun)).
Defined.

(** ** The highway layer *)

Section HighwayFacts.
Context {R : Type}.
Variables (rO rI : R) (radd rmul rsub : R → R → R) (ropp : R → R).
Hypothesis Rth : ring_theory rO rI radd rmul rsub ropp eq.








End HighwayFacts.





(** * Further properties of the module *)

(** ** [fps_to_arr] on fingerprints of different widths *)

(** A row of width [d] that receives the on-bits of [fp], all below [d], is
    [fp] cut or padded with zeros to [d] bits. *)
Lemma set_bits_resize (d : nat) (fp : list bool) :
  forallb (λ j, j <? d) (GetOnBits fp) = true →
  set_bits (replicate d false) (GetOnBits fp) = resize d false fp.
Proof.
  intros Hin. apply list_eq. intros k.
  destruct (decide (k < d)) as [Hk | Hk].
  - rewrite lookup_set_bits by (by rewrite length_replicate).
    destruct (decide (k < length fp)) as [Hl | Hl].
    + rewrite lookup_resize by done.
      destruct (lookup_lt_is_Some_2 fp k Hl) as [b Hb]. rewrite Hb.
      case_bool_decide as H.
      * apply GetOnBits_spec in H. congruence.
      * rewrite lookup_replicate_2 by done. destruct b; [|done].
        exfalso. by apply H, GetOnBits_spec.
    + rewrite lookup_resize_new by lia.
      rewrite bool_decide_eq_false_2.
      * by rewrite lookup_replicate_2.
      * intros H%GetOnBits_spec%lookup_lt_Some. lia.
  - rewrite !lookup_ge_None_2; [done | rewrite length_resize; lia |].
    rewrite length_set_bits, length_replicate. lia.
Qed.

Lemma assign_row_in_range (d : nat) (pre post : list (list bool))
    (fp : list bool) :
  assign_row (pre ++ replicate d false :: post) (length pre) (GetOnBits fp)
  = if forallb (λ j, j <? d) (GetOnBits fp)
    then Ok (pre ++ resize d false fp :: post)
    else Raise IndexError.
Proof.
  unfold assign_row.
  rewrite list_lookup_middle by done.
  rewrite length_replicate.
  destruct (forallb (λ j, j <? d) (GetOnBits fp)) eqn:Hin; [|done].
  rewrite insert_app_r_alt, Nat.sub_diag by done.
  simpl. by rewrite set_bits_resize.
Qed.

Lemma fps_to_arr_loop_ragged (d : nat) (rest : list (list bool))
    (pre : list (list bool)) :
  fps_to_arr_loop (length pre) rest
    (pre ++ replicate (length rest) (replicate d false))
  = if forallb (λ fp, forallb (λ j, j <? d) (GetOnBits fp)) rest
    then Ok (pre ++ (resize d false <$> rest))
    else Raise IndexError.
Proof.
  revert pre. induction rest as [|fp rest IH]; intros pre.
  - simpl. by rewrite app_nil_r.
  - cbn [fps_to_arr_loop length replicate forallb].
    rewrite assign_row_in_range.
    destruct (forallb (λ j, j <? d) (GetOnBits fp)); [|done].
    cbn [rbind andb].
    specialize (IH (pre ++ [resize d false fp])).
    rewrite length_app, Nat.add_1_r, <- !app_assoc in IH.
    cbn [app length] in IH.
    rewrite IH. by destruct (forallb _ rest).
Qed.

(** X1: the width of the array is the width of the first fingerprint.
    [fps_to_arr] succeeds exactly when no fingerprint has a bit set at or
    beyond that width; a shorter fingerprint then fills its row with zeros on
    the right, a longer one loses only zero bits; a bit set beyond the width
    raises IndexError. *)
Theorem fps_to_arr_ragged (fp0 : list bool) (fps : list (list bool)) :
  fps_to_arr (fp0 :: fps)
  = if forallb (λ fp, forallb (λ j, j <? length fp0) (GetOnBits fp)) fps
    then Ok (resize (length fp0) false <$> (fp0 :: fps))
    else Raise IndexError.
Proof.
  unfold fps_to_arr, np_zeros.
  etrans; [exact (fps_to_arr_loop_ragged (length fp0) (fp0 :: fps) [])|].
  cbn [forallb app]. by rewrite GetOnBits_bound.
Qed.

(** ** [fingerprint_mols] and the preprocessing of the policies *)

Lemma fingerprint_mols_loop_mapM (tk : Toolkit) (fp_dim : nat)
    (mols : list string) (acc : list (list bool)) :
  fingerprint_mols_loop tk mols fp_dim acc
  = match mapM (MolFromSmiles tk) mols with
    | Some ms =>
        Ok (acc ++ ((λ m, GetMorganFingerprintAsBitVect tk m 2 fp_dim) <$> ms))
    | None => Raise ArgumentError
    end.
Proof.
  revert acc. induction mols as [|mol mols IH]; intros acc.
  - simpl. by rewrite app_nil_r.
  - cbn [fingerprint_mols_loop mapM]. unfold fingerprint_mol.
    destruct (MolFromSmiles tk mol) as [m|]; [|done].
    cbn [rbind]. rewrite IH. simpl.
    destruct (mapM (MolFromSmiles tk) mols) as [ms|]; [|done].
    simpl. by rewrite <- app_assoc.
Qed.

Lemma mapM_valid (tk : Toolkit) (mols : list string) :
  Forall (valid_smiles tk) mols ↔ is_Some (mapM (MolFromSmiles tk) mols).
Proof. symmetry. apply mapM_is_Some. Qed.

Lemma fingerprint_mols_cases (tk : Toolkit) (fp_dim : nat)
    (mols : list string) :
  (Forall (valid_smiles tk) mols →
   ∃ fps, fingerprint_mols tk mols fp_dim = Ok fps ∧
          Forall2 (λ mol fp, fingerprint_mol tk mol fp_dim = Ok fp) mols fps) ∧
  (¬ Forall (valid_smiles tk) mols →
   fingerprint_mols tk mols fp_dim = Raise ArgumentError).
Proof.
  unfold fingerprint_mols. rewrite fingerprint_mols_loop_mapM. split.
  - intros [ms Hms]%mapM_valid. rewrite Hms. eexists. split; [done|].
    simpl. apply mapM_Some in Hms.
    induction Hms as [|mol m mols ms Hm _ IH]; [constructor|].
    rewrite fmap_cons. constructor; [|done].
    unfold fingerprint_mol. by rewrite Hm.
  - intros Hbad.
    destruct (mapM (MolFromSmiles tk) mols) as [ms|] eqn:Hms; [|done].
    exfalso. apply Hbad, mapM_valid. by rewrite Hms.
Qed.





(** ** [fingerprint_reactions] *)

Lemma fingerprint_reactions_loop_Ok (tk : Toolkit) (fp_dim : nat)
    (reactions : list string) (acc out : list (list bool)) :
  fingerprint_reactions_loop tk reactions fp_dim acc = Ok out ↔
  ∃ fps, out = acc ++ fps ∧
         Forall2 (λ r fp, fingerprint_reaction tk r fp_dim = Ok fp)
           reactions fps.
Proof.
  revert acc. induction reactions as [|r rs IH]; intros acc; simpl.
  - split.
    + intros [= <-]. exists []. by rewrite app_nil_r.
    + intros (fps & -> & ->%Forall2_nil_inv_l). by rewrite app_nil_r.
  - destruct (fingerprint_reaction tk r fp_dim) as [fp|e] eqn:Hfp; simpl.
    + rewrite IH. split.
      * intros (fps & -> & Hall). exists (fp :: fps).
        split; [by rewrite <- app_assoc|]. by constructor.
      * intros (fps & -> & Hall).
        apply Forall2_cons_inv_l in Hall as (fp' & fps' & Hfp' & Hall & ->).
        rewrite Hfp in Hfp'. injection Hfp' as <-.
        exists fps'. split; [by rewrite <- app_assoc|done].
    + split; [done|]. intros (fps & _ & Hall).
      apply Forall2_cons_inv_l in Hall as (fp' & fps' & Hfp' & _ & _).
      congruence.
Qed.

Lemma fold_factor_bounds (n d : nat) :
  1 < d → d ≤ n →
  0 < n / d ∧ n / d < n ∧ d ≤ n / (n / d) ∧ n / (n / d) < 2 * d.
Proof.
  intros Hd Hn.
  pose proof (Nat.div_mod_eq n d) as Hdm.
  pose proof (Nat.mod_upper_bound n d ltac:(lia)) as Hlt.
  assert (Hq : 0 < n / d) by (apply Nat.div_str_pos; lia).
  split; [done|]. split; [nia|]. split.
  - apply Nat.div_le_lower_bound; nia.
  - apply Nat.Div0.div_lt_upper_bound; nia.
Qed.

Lemma fingerprint_reaction_width (tk : Toolkit) (r : string)
    (fp_dim n : nat) :
  structural_bits tk r = Some n → 1 < fp_dim → fp_dim ≤ n →
  ∃ fp, fingerprint_reaction tk r fp_dim = Ok fp ∧
        length fp = n / (n / fp_dim) ∧
        fp_dim ≤ length fp < 2 * fp_dim.
Proof.
  unfold structural_bits, fingerprint_reaction. intros Hbits Hd Hn.
  destruct (ReactionFromSmarts tk r) as [rxn|]; [|done].
  simpl in Hbits. injection Hbits as Hbits.
  destruct (fold_factor_bounds n fp_dim Hd Hn) as (Hq & Hqn & Hlo & Hhi).
  unfold floordiv, FoldFingerprint. rewrite Hbits.
  replace (fp_dim =? 0) with false by (symmetry; apply Nat.eqb_neq; lia).
  cbn [rbind].
  replace (n / fp_dim =? 0) with false by (symmetry; apply Nat.eqb_neq; lia).
  replace (n <=? n / fp_dim) with false by (symmetry; apply Nat.leb_gt; lia).
  simpl. eexists. split; [done|].
  rewrite length_set_bits, length_replicate. lia.
Qed.



(** ** The input array of the in-scope filter *)

Lemma fingerprint_mols_Ok_shape (tk : Toolkit) (fp_dim : nat)
    (mols : list string) (fps : list (list bool)) :
  fingerprint_mols tk mols fp_dim = Ok fps →
  length fps = length mols ∧
  (morgan_nbits tk → 0 < fp_dim → Forall (λ fp, length fp = fp_dim) fps).
Proof.
  unfold fingerprint_mols. rewrite fingerprint_mols_loop_mapM.
  destruct (mapM (MolFromSmiles tk) mols) as [ms|] eqn:Hms; [|done].
  intros [= <-]. simpl. split.
  - rewrite length_fmap. symmetry. by eapply length_mapM.
  - intros Hm Hpos. apply Forall_fmap, Forall_forall. intros m _. simpl.
    by apply Hm.
Qed.

Lemma np_hstack_split (d : nat) (a b : list (list bool)) :
  Forall (λ row, length row = d) a → length a = length b →
  X_prod d (np_hstack a b) = a ∧ X_react d (np_hstack a b) = b.
Proof.
  unfold X_prod, X_react, np_hstack. intros Ha. revert b.
  induction Ha as [|ra a Hra _ IH]; intros [|rb b] Hlen; try done.
  simpl in Hlen. destruct (IH b) as [IH1 IH2]; [lia|].
  cbn [zip_with fmap list_fmap]. split; f_equal; try done.
  - by rewrite <- Hra, take_app_length.
  - by rewrite <- Hra, drop_app_length.
Qed.

(** X5: [InScopeFilterNet.preprocess] raises ValueError on an empty batch.
    When it returns an array, the array has one row per (product, rule) pair,
    and the column split of the network, [X[:, :product_fp_dim]] and
    [X[:, product_fp_dim:]], gives back the product fingerprints and the
    reaction fingerprints that were stacked. *)
Theorem InScopeFilterNet_preprocess_split (tk : Toolkit)
    (prod_fp_dim react_fp_dim : nat) (X : list (string * string))
    (arr : list (list bool)) :
  InScopeFilterNet_preprocess tk prod_fp_dim react_fp_dim [] = Raise ValueError
  ∧ (morgan_nbits tk → 0 < prod_fp_dim →
     InScopeFilterNet_preprocess tk prod_fp_dim react_fp_dim X = Ok arr →
     ∃ prod_fps react_fps,
       fingerprint_mols tk X.*1 prod_fp_dim = Ok prod_fps ∧
       fingerprint_reactions tk X.*2 react_fp_dim = Ok react_fps ∧
       length arr = length X ∧
       X_prod prod_fp_dim arr = prod_fps ∧
       X_react prod_fp_dim arr = react_fps).
Proof.
  split; [done|]. intros Hm Hpos. unfold InScopeFilterNet_preprocess.
  destruct X as [|p X]; [done|]. cbn [unzip rbind].
  destruct (fingerprint_mols tk (p :: X).*1 prod_fp_dim)
    as [prod_fps|] eqn:Hp; [|done].
  cbn [rbind].
  destruct (fingerprint_reactions tk (p :: X).*2 react_fp_dim)
    as [react_fps|] eqn:Hr; [|done].
  cbn [rbind]. intros [= <-].
  apply fingerprint_mols_Ok_shape in Hp as [Hlp Hwp].
  specialize (Hwp Hm Hpos).
  assert (Hlr : length react_fps = length (p :: X).*2).
  { unfold fingerprint_reactions in Hr.
    apply fingerprint_reactions_loop_Ok in Hr as (fps & -> & Hall).
    symmetry. by apply Forall2_length in Hall. }
  rewrite length_fmap in Hlp, Hlr.
  exists prod_fps, react_fps. do 2 (split; [done|]).
  split.
  { unfold np_hstack. rewrite length_zip_with. lia. }
  apply np_hstack_split; [done | lia].
Qed.

Lemma InScopeFilterNet_preprocess_split_witness :
  ∃ arr prod_fps react_fps,
    InScopeFilterNet_preprocess sample_toolkit 8 2048
      [("CCO", "[C:1]>>[C:1]O")]%string = Ok arr ∧
    length arr = 1 ∧
    X_prod 8 arr = prod_fps ∧ X_react 8 arr = react_fps.
Proof.
  assert (Hrun : ∃ arr, InScopeFilterNet_preprocess sample_toolkit 8 2048
                          [("CCO", "[C:1]>>[C:1]O")]%string = Ok arr)
    by (eexists; vm_compute; reflexivity).
  destruct Hrun as [arr Hrun].
  destruct (proj2 (InScopeFilterNet_preprocess_split sample_toolkit 8 2048
                     [("CCO", "[C:1]>>[C:1]O")]%string arr)
              sample_toolkit_morgan_nbits ltac:(lia) Hrun)
    as (prod_fps & react_fps & _ & _ & Hlen & Hp & Hr).
  exists arr, prod_fps, react_fps. split; [exact Hrun|]. done.
Defined.

(** ** The shape of the highway layer *)

Section HighwayShape.
Context {R : Type}.
Variables (rO rI : R) (radd rmul rsub : R → R → R) (sigmoid : R → R).
Variable size : nat.

Lemma length_row_matmul (xr : list R) (W : list (list R)) :
  Forall (λ row, length row = size) W →
  length (row_matmul rO radd rmul size xr W) = size.
Proof.
  unfold row_matmul. intros HW.
  assert (Hrows : Forall (λ row, length row = size)
                    (zip_with (λ xk Wk, rmul xk <$> Wk) xr W)).
  { revert xr. induction HW as [|Wk W HWk _ IH]; intros [|xk xr]; simpl;
      try constructor; [by rewrite length_fmap | apply IH]. }
  induction Hrows as [|row rows Hrow _ IH]; simpl.
  - apply length_replicate.
  - rewrite length_zip_with, IH, Hrow. lia.
Qed.

Lemma shape_add_bias (m : list (list R)) (b : list R) :
  Forall (λ row, length row = size) m → length b = size →
  length (add_bias radd m b) = length m ∧
  Forall (λ row, length row = size) (add_bias radd m b).
Proof.
  intros Hm Hb. unfold add_bias. split; [apply length_fmap|].
  apply Forall_fmap. eapply Forall_impl; [exact Hm|]. simpl.
  intros row Hrow. rewrite length_zip_with. lia.
Qed.

Lemma shape_tf_matmul (x W : list (list R)) :
  Forall (λ row, length row = size) W →
  length (tf_matmul rO radd rmul size x W) = length x ∧
  Forall (λ row, length row = size) (tf_matmul rO radd rmul size x W).
Proof.
  intros HW. unfold tf_matmul. split; [apply length_fmap|].
  apply Forall_fmap, Forall_forall. intros xr _. simpl.
  by apply length_row_matmul.
Qed.

Lemma shape_elementwise (f : R → R → R) (a b : list (list R)) :
  Forall (λ row, length row = size) a →
  Forall (λ row, length row = size) b →
  length a = length b →
  length (zip_with (zip_with f) a b) = length a ∧
  Forall (λ row, length row = size) (zip_with (zip_with f) a b).
Proof.
  intros Ha. revert b. induction Ha as [|ra a Hra _ IH];
    intros [|rb b] Hb Hlen; try done.
  apply Forall_cons in Hb as [Hrb Hb]. simpl in Hlen.
  destruct (IH b Hb) as [IH1 IH2]; [lia|]. simpl. split; [lia|].
  constructor; [|done]. rewrite length_zip_with. lia.
Qed.

End HighwayShape.

(** X6: the highway layer keeps the shape of its input.  With [x] of shape
    [(batch, size)], weights of shape [(size, size)], biases of [size]
    entries and an activation that keeps shapes, the output has shape
    [(batch, size)] again, so the layer can be applied to its own output, as
    the policies do five times in a row. *)
Theorem highway_layer_shape {R : Type} (rO rI : R)
    (radd rmul rsub : R → R → R) (sigmoid : R → R) (size : nat)
    (x : list (list R)) (activation : list (list R) → list (list R))
    (W_T : list (list R)) (b_T : list R) (W : list (list R)) (b : list R) :
  Forall (λ row, length row = size) x →
  Forall (λ row, length row = size) W_T → length b_T = size →
  Forall (λ row, length row = size) W → length b = size →
  (∀ m, Forall (λ row, length row = size) m →
        length (activation m) = length m ∧
        Forall (λ row, length row = size) (activation m)) →
  let out := highway_layer rO rI radd rmul rsub sigmoid size x activation
               W_T b_T W b in
  length out = length x ∧ Forall (λ row, length row = size) out.
Proof.
  intros Hx HWT HbT HW Hb Hact out.
  destruct (shape_tf_matmul rO radd rmul size x W_T HWT) as [HlT0 HsT0].
  destruct (shape_add_bias radd size _ b_T HsT0 HbT) as [HlT1 HsT1].
  assert (HT : length (transform_gate rO radd rmul sigmoid size x W_T b_T)
               = length x ∧
               Forall (λ row, length row = size)
                 (transform_gate rO radd rmul sigmoid size x W_T b_T)).
  { unfold transform_gate, tf_sigmoid. split.
    - rewrite length_fmap. lia.
    - apply Forall_fmap. eapply Forall_impl; [exact HsT1|]. simpl.
      intros row Hrow. by rewrite length_fmap. }
  destruct HT as [HlT HsT].
  destruct (shape_tf_matmul rO radd rmul size x W HW) as [HlH0 HsH0].
  destruct (shape_add_bias radd size _ b HsH0 Hb) as [HlH1 HsH1].
  destruct (Hact _ HsH1) as [HlH HsH].
  fold (activation_output rO radd rmul size x activation W b) in HlH, HsH.
  assert (HC : length (carry_gate rI rsub
                         (transform_gate rO radd rmul sigmoid size x W_T b_T))
               = length x ∧
               Forall (λ row, length row = size)
                 (carry_gate rI rsub
                    (transform_gate rO radd rmul sigmoid size x W_T b_T))).
  { unfold carry_gate, tf_subtract_scalar. split.
    - rewrite length_fmap. lia.
    - apply Forall_fmap. eapply Forall_impl; [exact HsT|]. simpl.
      intros row Hrow. by rewrite length_fmap. }
  destruct HC as [HlC HsC].
  destruct (shape_elementwise size rmul _ _ HsH HsT) as [Hl1 Hs1]; [lia|].
  destruct (shape_elementwise size rmul _ _ Hx HsC) as [Hl2 Hs2]; [lia|].
  destruct (shape_elementwise size radd _ _ Hs1 Hs2) as [Hl3 Hs3]; [lia|].
  unfold out, highway_layer, tf_add, tf_multiply. split; [lia|done].
Qed.

Lemma highway_layer_shape_witness :
  let out := highway_layer 0%Z 1%Z Z.add Z.mul Z.sub
               (λ z, if (z <? 0)%Z then 0%Z else 1%Z) 2
               [[2; 5]; [1; 1]; [0; 7]]%Z (λ t, t) [[1; 0]; [0; 1]]%Z
               [-3; -3]%Z [[1; 0]; [0; 1]]%Z [1; 1]%Z in
  length out = 3 ∧ Forall (λ row, length row = 2) out.
Proof.
  apply (highway_layer_shape 0%Z 1%Z Z.add Z.mul Z.sub
           (λ z, if (z <? 0)%Z then 0%Z else 1%Z) 2
           [[2; 5]; [1; 1]; [0; 7]]%Z (λ t, t) [[1; 0]; [0; 1]]%Z
           [-3; -3]%Z [[1; 0]; [0; 1]]%Z [1; 1]%Z);
    try done; repeat constructor.
Defined.

(** ** [train] at its edges *)

(** X7: [train] with [batch_size = 0] raises ZeroDivisionError before
    anything else happens; with a positive batch size and [epochs = 0] it
    returns without a step and without touching the generator; with a
    positive number of epochs and no example or no label it raises
    ValueError in the first epoch, when the shuffled list is unpacked. *)
Theorem train_edges {A L F} (preprocess : list A → result F) (X : list A)
    (y : list L) (batch_size epochs : nat) (g : rng) :
  train preprocess X y 0 epochs g = Raised ZeroDivisionError ∧
  (0 < batch_size → train preprocess X y batch_size 0 g = Done [] g) ∧
  (0 < batch_size → 0 < epochs → X = [] ∨ y = [] →
   train preprocess X y batch_size epochs g = Raised ValueError).
Proof.
  split; [done|]. split.
  - intros Hbs. destruct (ceil_div_Ok (length X) batch_size Hbs) as [n Hn].
    unfold train, bind. by rewrite Hn.
  - intros Hbs Hep Hempty.
    destruct (ceil_div_Ok (length X) batch_size Hbs) as [n Hn].
    unfold train, bind. rewrite Hn. simpl.
    destruct epochs as [|epochs]; [lia|].
    assert (Hzip : zip X y = []).
    { destruct Hempty as [-> | ->]; [done | by destruct X]. }
    cbn [train_epochs]. unfold bind, shuffle_Xy, bind, shuffle.
    by rewrite Hzip.
Qed.

Lemma train_edges_witness :
  train (λ b : list string, Ok b) ["CCO"]%string [1] 4 0 [5; 6] = Done [] [5; 6]
  ∧ train (λ b : list string, Ok b) [] ([] : list nat) 4 3 [5; 6]
    = Raised ValueError.
Proof.
  split.
  - apply (proj1 (proj2 (train_edges (λ b : list string, Ok b)
                           ["CCO"]%string [1] 4 0 [5; 6]))). lia.
  - apply (proj2 (proj2 (train_edges (λ b : list string, Ok b)
                           [] ([] : list nat) 4 3 [5; 6]))); [lia | lia |].
    by left.
Defined.



(** ** The groups of products per rule *)

Lemma positive_pairs_elem {V} (prod_to_rules : list (string * list string))
    (expansion_rules : list (string * V)) (prod r : string) :
  (prod, r) ∈ positive_pairs prod_to_rules expansion_rules ↔
  ∃ rules, (prod, rules) ∈ prod_to_rules ∧ r ∈ rules ∧
           r ∈ keys expansion_rules.
Proof.
  unfold positive_pairs, rules_in. rewrite list_elem_of_bind. split.
  - intros ([prod' rules] & Hin & Hitem).
    apply list_elem_of_fmap in Hin as (r' & [= -> ->] & Hr).
    apply list_elem_of_filter in Hr as [Hexp Hr]. simpl in *.
    by exists rules.
  - intros (rules & Hitem & Hr & Hexp). exists (prod, rules).
    split; [|done]. apply list_elem_of_fmap. exists r.
    split; [done|]. by apply list_elem_of_filter.
Qed.

Lemma group_get_append (r r' prod : string)
    (groups : list (string * list string)) :
  group_get r' (group_append r prod groups)
  = if decide (r' = r) then group_get r groups ++ [prod]
    else group_get r' groups.
Proof.
  unfold group_get. induction groups as [|[k prods] groups IH]; simpl.
  - destruct (String.eqb_spec r' r); by case_decide.
  - destruct (String.eqb_spec r k) as [-> | Hrk]; simpl.
    + destruct (String.eqb_spec r' k) as [-> | Hk]; case_decide; done.
    + destruct (String.eqb_spec r' k) as [-> | Hk].
      * case_decide; [congruence | done].
      * exact IH.
Qed.

Lemma keys_group_append (r prod : string)
    (groups : list (string * list string)) :
  keys (group_append r prod groups)
  = if decide (r ∈ keys groups) then keys groups else keys groups ++ [r].
Proof.
  unfold keys. induction groups as [|[k prods] groups IH].
  - rewrite decide_False; [done | apply not_elem_of_nil].
  - cbn [group_append]. destruct (String.eqb_spec r k) as [-> | Hrk].
    + rewrite decide_True; [done | by left].
    + rewrite !fmap_cons, IH. cbn [fst].
      destruct (decide (r ∈ groups.*1)) as [Hin | Hout].
      * rewrite decide_True; [done | by right].
      * rewrite decide_False; [done|].
        intros [? | ?]%elem_of_cons; done.
Qed.

Lemma rule_groups_item_flat {V} (expansion_rules : list (string * V))
    (st : list (string * list string) * option string)
    (item : string * list string) :
  rule_groups_item expansion_rules st item
  = foldl (λ st p, (group_append p.2 p.1 st.1, Some p.2)) st
      ((λ r, (item.1, r)) <$> rules_in expansion_rules item.2).
Proof.
  destruct item as [prod rules]. unfold rule_groups_item. simpl.
  rewrite foldl_fmap. simpl.
  by destruct (rules_in expansion_rules rules).
Qed.

Lemma build_rule_groups_flat {V}
    (prod_to_rules : list (string * list string))
    (expansion_rules : list (string * V)) :
  build_rule_groups prod_to_rules expansion_rules
  = foldl (λ st p, (group_append p.2 p.1 st.1, Some p.2)) ([], None)
      (positive_pairs prod_to_rules expansion_rules).
Proof.
  unfold build_rule_groups, positive_pairs.
  generalize (@nil (string * list string), @None string).
  induction prod_to_rules as [|item items IH]; intros st; [done|].
  rewrite bind_cons, foldl_app. simpl foldl at 1.
  by rewrite IH, rule_groups_item_flat.
Qed.

Lemma group_fold_get (pairs : list (string * string))
    (st : list (string * list string) * option string) (r : string) :
  group_get r (foldl (λ st p, (group_append p.2 p.1 st.1, Some p.2)) st
                 pairs).1
  = group_get r st.1 ++ (filter (λ p, p.2 = r) pairs).*1.
Proof.
  revert st. induction pairs as [|[prod r'] pairs IH]; intros st.
  - simpl. by rewrite app_nil_r.
  - cbn [foldl]. rewrite IH. cbn [fst snd]. rewrite group_get_append.
    destruct (decide (r = r')) as [-> | Hne].
    + rewrite filter_cons_True by done. rewrite fmap_cons.
      by rewrite <- app_assoc.
    + rewrite filter_cons_False; [done|]. simpl. congruence.
Qed.

Lemma group_fold_keys (pairs : list (string * string))
    (st : list (string * list string) * option string) :
  let groups := (foldl (λ st p, (group_append p.2 p.1 st.1, Some p.2)) st
                   pairs).1 in
  (NoDup (keys st.1) → NoDup (keys groups)) ∧
  (∀ r, r ∈ keys groups ↔ r ∈ keys st.1 ∨ r ∈ pairs.*2).
Proof.
  revert st. induction pairs as [|[prod r'] pairs IH]; intros st.
  - simpl. split; [done|]. intros r. split; [by left|].
    by intros [? | ?%not_elem_of_nil].
  - cbn [foldl]. destruct (IH (group_append r' prod st.1, Some r'))
      as [IHnd IHin]. cbn [fst snd] in *. split.
    + intros Hnd. apply IHnd. rewrite keys_group_append.
      case_decide as Hin; [done|].
      apply NoDup_app. split; [done|]. split; [|apply NoDup_singleton].
      intros x Hx ->%list_elem_of_singleton. done.
    + intros r. rewrite IHin, keys_group_append, fmap_cons, elem_of_cons.
      simpl. case_decide as Hin.
      * split; [tauto|]. intros [? | [-> | ?]]; tauto.
      * rewrite elem_of_app, list_elem_of_singleton. tauto.
Qed.

Lemma rule_groups_spec {V} (prod_to_rules : list (string * list string))
    (expansion_rules : list (string * V)) :
  let groups := (build_rule_groups prod_to_rules expansion_rules).1 in
  NoDup (keys groups) ∧
  (∀ r, group_get r groups
        = (filter (λ p, p.2 = r)
             (positive_pairs prod_to_rules expansion_rules)).*1) ∧
  (∀ r, r ∈ keys groups ↔
        r ∈ (positive_pairs prod_to_rules expansion_rules).*2).
Proof.
  intros groups. unfold groups. rewrite build_rule_groups_flat.
  destruct (group_fold_keys (positive_pairs prod_to_rules expansion_rules)
              ([], None)) as [Hnd Hin].
  split; [apply Hnd; constructor|]. split.
  - intros r. by rewrite group_fold_get.
  - intros r. rewrite Hin. simpl. split; [|by right].
    by intros [?%not_elem_of_nil | ?].
Qed.

(** X9: the grouping of lines 232-237.  The group of a rule holds exactly
    the products that list the rule, for the rules of the expansion set; the
    keys of [rule_groups] are the rules with at least one such product, each
    once. *)
Theorem rule_groups_members {V}
    (prod_to_rules : list (string * list string))
    (expansion_rules : list (string * V)) :
  let groups := (build_rule_groups prod_to_rules expansion_rules).1 in
  NoDup (keys groups) ∧
  (∀ r prod, prod ∈ group_get r groups ↔
             ∃ rules, (prod, rules) ∈ prod_to_rules ∧ r ∈ rules ∧
                      r ∈ keys expansion_rules) ∧
  (∀ r, r ∈ keys groups ↔ ∃ prod, prod ∈ group_get r groups).
Proof.
  intros groups.
  destruct (rule_groups_spec prod_to_rules expansion_rules)
    as (Hnd & Hget & Hkeys).
  fold groups in Hnd, Hget, Hkeys.
  assert (Hmem : ∀ r prod, prod ∈ group_get r groups ↔
                   (prod, r) ∈ positive_pairs prod_to_rules expansion_rules).
  { intros r prod. rewrite Hget, list_elem_of_fmap. split.
    - intros ([prod' r'] & -> & [Hr Hin]%list_elem_of_filter).
      simpl in Hr. by subst r'.
    - intros Hin. exists (prod, r). split; [done|].
      by apply list_elem_of_filter. }
  split; [done|]. split.
  - intros r prod. by rewrite Hmem, positive_pairs_elem.
  - intros r. rewrite Hkeys, list_elem_of_fmap. split.
    + intros ([prod r'] & -> & Hin). exists prod. by apply Hmem.
    + intros [prod Hin%Hmem]. by exists (prod, r).
Qed.

(** ** The similarity statistics *)

Lemma sims_pairs_elem (n i j : nat) :
  (i, j) ∈ sims_pairs n ↔ i < n ∧ j < n ∧ i ≠ j.
Proof.
  unfold sims_pairs. rewrite list_elem_of_bind. split.
  - intros (i' & Hin & Hi'%elem_of_seq).
    apply list_elem_of_bind in Hin as (j' & Hin & Hj'%elem_of_seq).
    destruct (decide (i' = j')) as [|Hne]; [by apply not_elem_of_nil in Hin|].
    apply list_elem_of_singleton in Hin as [= -> ->]. lia.
  - intros (Hi & Hj & Hne). exists i. split; [|apply elem_of_seq; lia].
    apply list_elem_of_bind. exists j. split; [|apply elem_of_seq; lia].
    rewrite decide_False by done. by apply list_elem_of_singleton.
Qed.

Lemma sims_pairs_nil (n : nat) : sims_pairs n = [] ↔ n < 2.
Proof.
  split.
  - intros Hnil. destruct (decide (n < 2)) as [|Hge]; [done|].
    assert (Hin : (0, 1) ∈ sims_pairs n) by (apply sims_pairs_elem; lia).
    rewrite Hnil in Hin. by apply not_elem_of_nil in Hin.
  - intros Hn. destruct (sims_pairs n) as [|[i j] l] eqn:Hs; [done|].
    assert (Hin : (i, j) ∈ sims_pairs n) by (rewrite Hs; by left).
    apply sims_pairs_elem in Hin. lia.
Qed.

Lemma all_sims_loop_counts (tk : Toolkit)
    (groups : list (string * list string)) (all_sims : nat) :
  (Forall (λ g, Forall (valid_smiles tk) g.2) groups →
   all_sims_loop tk groups all_sims
   = Ok (all_sims + length (filter (λ g, 2 ≤ length g.2) groups))) ∧
  (¬ Forall (λ g, Forall (valid_smiles tk) g.2) groups →
   all_sims_loop tk groups all_sims = Raise ArgumentError).
Proof.
  revert all_sims. induction groups as [|[rule prods] groups IH];
    intros all_sims.
  { split; [intros _; simpl; f_equal; lia|]. intros H. by destruct H. }
  cbn [all_sims_loop].
  destruct (decide (Forall (valid_smiles tk) prods)) as [Hv | Hv].
  - destruct (proj1 (fingerprint_mols_cases tk 10000 prods) Hv)
      as (fprs & -> & Hall).
    cbn [rbind]. apply Forall2_length in Hall.
    assert (Hstep : ∀ n,
              match sims_pairs (length fprs) with
              | [] => all_sims_loop tk groups n
              | _ :: _ => all_sims_loop tk groups (n + 1)
              end
              = all_sims_loop tk groups
                  (n + if decide (2 ≤ length prods) then 1 else 0)).
    { intros n. rewrite <- Hall.
      destruct (sims_pairs (length prods)) as [|p l] eqn:Hs.
      - apply sims_pairs_nil in Hs. rewrite decide_False by lia.
        by rewrite Nat.add_0_r.
      - rewrite decide_True; [done|].
        destruct (decide (2 ≤ length prods)) as [|Hlt]; [done|].
        assert (Hnil : sims_pairs (length prods) = [])
          by (apply sims_pairs_nil; lia).
        congruence. }
    rewrite Hstep. split.
    + intros [_ Hrest]%Forall_cons.
      rewrite (proj1 (IH _) Hrest). f_equal.
      destruct (decide (2 ≤ length prods)) as [Hge | Hlt].
      * rewrite filter_cons_True by done. simpl. lia.
      * rewrite filter_cons_False by done. lia.
    + intros Hbad. apply (proj2 (IH _)). intros Hrest. apply Hbad.
      by constructor.
  - rewrite (proj2 (fingerprint_mols_cases tk 10000 prods) Hv).
    split; [|done]. intros [Hv' _]%Forall_cons. done.
Qed.

(** X10: the statistics of lines 239-251.  For a rule with [n] products the
    inner loops visit the ordered pairs [(i, j)] with [i ≠ j] below [n], so a
    rule contributes a mean exactly when it has at least two products:
    [all_sims] ends with one entry per such rule.  A product string that
    does not parse, in any group, raises ArgumentError. *)
Theorem all_sims_one_mean_per_group (tk : Toolkit)
    (groups : list (string * list string)) :
  (∀ n i j, (i, j) ∈ sims_pairs n ↔ i < n ∧ j < n ∧ i ≠ j) ∧
  (Forall (λ g, Forall (valid_smiles tk) g.2) groups →
   all_sims_loop tk groups 0
   = Ok (length (filter (λ g, 2 ≤ length g.2) groups))) ∧
  (¬ Forall (λ g, Forall (valid_smiles tk) g.2) groups →
   all_sims_loop tk groups 0 = Raise ArgumentError).
Proof.
  split; [apply sims_pairs_elem|].
  apply (all_sims_loop_counts tk groups 0).
Qed.

Lemma all_sims_one_mean_per_group_witness :
  all_sims_loop sample_toolkit
    [("[C:1]>>[C:1]O", ["CCO"; "CO"]); ("[C:1]>>[C:1]C", ["CC"])]%string 0
  = Ok 1 ∧
  all_sims_loop sample_toolkit
    [("[C:1]>>[C:1]O", ["CCO"; EmptyString])]%string 0
  = Raise ArgumentError.
Proof.
  split.
  - apply (proj1 (proj2 (all_sims_one_mean_per_group sample_toolkit
                    [("[C:1]>>[C:1]O", ["CCO"; "CO"]);
                     ("[C:1]>>[C:1]C", ["CC"])]%string))).
    repeat constructor; by eexists.
  - apply (proj2 (proj2 (all_sims_one_mean_per_group sample_toolkit
                    [("[C:1]>>[C:1]O", ["CCO"; EmptyString])]%string))).
    intros [Hg _]%Forall_cons. simpl in Hg.
    apply Forall_cons in Hg as [_ Hg].
    apply Forall_cons in Hg as [[m Hm] _]. discriminate Hm.
Defined.

(** ** Loops that cannot end *)

(** A loop whose body gives back the state it was given cannot leave a state
    in which its condition holds. *)
Lemma while_fuel_stuck {St} (cond : St → bool) (body : St → M St) (s : St) :
  cond s = true →
  (∀ g s' g', body s g = Done s' g' → s' = s) →
  ∀ fuel g s' g', while_fuel fuel cond body s g ≠ Done s' g'.
Proof.
  intros Hc Hsame fuel. induction fuel as [|fuel IH]; intros g s' g'; simpl;
    rewrite Hc; [done|].
  unfold bind. destruct (body s g) as [s1 g1| |] eqn:Hb; [|done..].
  apply Hsame in Hb as ->. apply IH.
Qed.

Lemma at_most_one_key (l : list string) :
  NoDup l → (∀ x y, x ∈ l → y ∈ l → x = y) → l = [] ∨ ∃ a, l = [a].
Proof.
  intros Hnd Hone. destruct l as [|a [|b l]]; [by left | right; by exists a|].
  exfalso. apply NoDup_cons in Hnd as [Hnotin _].
  apply Hnotin. rewrite (Hone a b); [by left | by left | by right; left].
Qed.

Lemma notsims_body_one_rule (tk : Toolkit) (rules : list string)
    (rule_groups : list (string * list string)) (n n' : nat) (g g' : rng) :
  rules = [] ∨ (∃ a, rules = [a]) →
  notsims_body tk rules rule_groups n g = Done n' g' → n' = n.
Proof.
  intros Hrules. unfold notsims_body, bind.
  destruct (choice rules g) as [a g1| |] eqn:Ha; [|done..].
  destruct (choice rules g1) as [b g2| |] eqn:Hb; [|done..].
  apply choice_Done in Ha as (_ & _ & Ha).
  apply choice_Done in Hb as (_ & _ & Hb).
  destruct Hrules as [-> | [c ->]]; [by apply not_elem_of_nil in Ha|].
  apply list_elem_of_singleton in Ha as ->.
  apply list_elem_of_singleton in Hb as ->.
  rewrite String.eqb_refl. by intros [= <- <-].
Qed.

(** X11: the script needs two expansion rules in use.  If the products of
    [prod_to_rules] share at most one rule of the expansion set, the sampling
    of lines 255-263 draws the same rule twice in every round (or has no rule
    to draw from): whatever the generator draws, the script does not run to
    its end. *)
Theorem main_needs_two_rules (tk : Toolkit)
    (prod_to_rules : list (string * list string))
    (rollout_rules expansion_rules : list (string * nat))
    (g g' : rng) (events : list event) :
  (∀ prod1 rules1 r1 prod2 rules2 r2,
     (prod1, rules1) ∈ prod_to_rules → r1 ∈ rules1 →
     r1 ∈ keys expansion_rules →
     (prod2, rules2) ∈ prod_to_rules → r2 ∈ rules2 →
     r2 ∈ keys expansion_rules →
     r1 = r2) →
  main tk prod_to_rules rollout_rules expansion_rules g ≠ Done events g'.
Proof.
  intros Hone.
  destruct (rule_groups_spec prod_to_rules expansion_rules)
    as (Hnd & _ & Hkeys).
  assert (Hrules : keys (build_rule_groups prod_to_rules expansion_rules).1
                   = [] ∨
                   ∃ a, keys (build_rule_groups prod_to_rules
                                expansion_rules).1 = [a]).
  { apply at_most_one_key; [done|]. intros x y Hx Hy.
    apply Hkeys, list_elem_of_fmap in Hx as ([px rx] & -> & Hx).
    apply Hkeys, list_elem_of_fmap in Hy as ([py ry] & -> & Hy).
    apply positive_pairs_elem in Hx as (rulesx & ? & ? & ?).
    apply positive_pairs_elem in Hy as (rulesy & ? & ? & ?).
    simpl. by eapply (Hone px rulesx rx py rulesy ry). }
  unfold main.
  destruct (build_rule_groups prod_to_rules expansion_rules) as [groups r].
  cbn [fst] in Hrules. unfold bind at 1.
  destruct (lift (all_sims_loop tk groups 0) g) as [all_sims g1| |];
    [|done..].
  unfold bind at 1.
  destruct (while (λ notsims, notsims <? 10000)
              (notsims_body tk (keys groups) groups) 0 g1)
    as [notsims g2| |] eqn:Hloop; [|done..].
  exfalso. unfold while in Hloop. revert Hloop.
  apply while_fuel_stuck; [done|].
  intros g0 n' g0' Hb. by eapply notsims_body_one_rule.
Qed.

Lemma main_needs_two_rules_witness :
  ¬ ∃ events g',
      main sample_toolkit [("CCO", ["[C:1]>>[C:1]O"]); ("CO", ["[C:1]>>[C:1]O"])]%string
        sample_rollout_rules sample_expansion_rules [0; 1; 2; 3; 4; 5]
      = Done events g'.
Proof.
  intros (events & g' & Hrun). revert Hrun.
  apply main_needs_two_rules.
  intros prod1 rules1 r1 prod2 rules2 r2 H1 Hr1 _ H2 Hr2 _.
  assert (Hall : ∀ prod rules r,
            (prod, rules) ∈ [("CCO", ["[C:1]>>[C:1]O"]);
                             ("CO", ["[C:1]>>[C:1]O"])]%string →
            r ∈ rules → r = "[C:1]>>[C:1]O"%string).
  { intros prod rules r Hin Hr.
    repeat (apply elem_of_cons in Hin as [[= -> ->] | Hin];
            [by apply list_elem_of_singleton in Hr|]).
    by apply not_elem_of_nil in Hin. }
  rewrite (Hall _ _ _ H1 Hr1). by rewrite (Hall _ _ _ H2 Hr2).
Defined.

(** ** The positives of the in-scope filter dataset *)

Lemma positive_fold_state (pairs : list (string * string)) (st : dataset) :
  let st' := foldl (λ st p, positive_body p.1 st p.2) st pairs in
  (∀ k, k ∈ ds_exists st' ↔
        k ∈ ds_exists st ∨ ∃ prod r, (prod, r) ∈ pairs ∧ k = key_of prod r) ∧
  ds_r st' = match last pairs with
             | Some p => Some p.2
             | None => ds_r st
             end.
Proof.
  revert st. induction pairs as [|[prod r] pairs IH]; intros st.
  - simpl. split; [|done]. intros k. split; [by left|].
    intros [? | (? & ? & ?%not_elem_of_nil & _)]; done.
  - cbn [foldl]. destruct (IH (positive_body prod st r)) as [IHe IHr].
    cbn [fst snd] in *. split.
    + intros k. rewrite IHe. simpl. rewrite elem_of_union, elem_of_singleton.
      split.
      * intros [[-> | ?] | (p' & r' & Hin & ->)].
        -- right. exists prod, r. split; [by left | done].
        -- by left.
        -- right. exists p', r'. split; [by right | done].
      * intros [? | (p' & r' & [[= -> ->] | Hin]%elem_of_cons & ->)].
        -- left. by right.
        -- left. by left.
        -- right. by exists p', r'.
    + rewrite IHr, (last_cons (prod, r) pairs). by destruct (last pairs).
Qed.

Lemma positives_state {V} (prod_to_rules : list (string * list string))
    (expansion_rules : list (string * V)) (r0 : option string) :
  let st0 := positives prod_to_rules expansion_rules r0 in
  let pairs := positive_pairs prod_to_rules expansion_rules in
  ds_X st0 = pairs ∧
  ds_y st0 = replicate (length pairs) 1 ∧
  (∀ k, k ∈ ds_exists st0 ↔
        ∃ prod r, (prod, r) ∈ pairs ∧ k = key_of prod r) ∧
  ds_r st0 = match last pairs with
             | Some p => Some p.2
             | None => r0
             end.
Proof.
  intros st0 pairs. unfold st0. rewrite positives_flat. fold pairs.
  destruct (positive_fold_Xy pairs (empty_dataset r0)) as [HX Hy].
  destruct (positive_fold_state pairs (empty_dataset r0)) as [He Hr].
  split; [done|]. split; [done|]. split; [|done].
  intros k. rewrite He. simpl. split; [|by right].
  by intros [?%not_elem_of_empty | ?].
Qed.

(** X12: what the positives loop leaves behind.  [X] holds exactly the
    (product, rule) pairs of [prod_to_rules] whose rule is in the expansion
    set, all with label 1; [exists] holds exactly the keys of these pairs;
    and [r] is left at the rule of the last pair appended, whatever it was
    bound to before. *)
Theorem positives_contents {V} (prod_to_rules : list (string * list string))
    (expansion_rules : list (string * V)) (r0 : option string) :
  let st0 := positives prod_to_rules expansion_rules r0 in
  (∀ prod r, (prod, r) ∈ ds_X st0 ↔
             ∃ rules, (prod, rules) ∈ prod_to_rules ∧ r ∈ rules ∧
                      r ∈ keys expansion_rules) ∧
  ds_y st0 = replicate (length (ds_X st0)) 1 ∧
  (∀ k, k ∈ ds_exists st0 ↔
        ∃ prod r, (prod, r) ∈ ds_X st0 ∧ k = key_of prod r) ∧
  (∀ p, last (ds_X st0) = Some p → ds_r st0 = Some p.2).
Proof.
  intros st0.
  destruct (positives_state prod_to_rules expansion_rules r0)
    as (HX & Hy & He & Hr).
  fold st0 in HX, Hy, He, Hr. rewrite HX. split.
  - intros prod r. apply positive_pairs_elem.
  - split; [done|]. split; [done|]. intros p Hp. by rewrite Hr, Hp.
Qed.

Lemma positives_contents_witness :
  ds_r (positives sample_prod_to_rules sample_expansion_rules None)
  = Some "[C:1]>>[C:1]C"%string.
Proof.
  apply (proj2 (proj2 (proj2 (positives_contents sample_prod_to_rules
                                sample_expansion_rules None)))
           ("CC", "[C:1]>>[C:1]C")%string).
  vm_compute. reflexivity.
Defined.

(** ** The negatives of the in-scope filter dataset *)

Lemma negative_body_step (prods exprules : list string) (st st' : dataset)
    (g g' : rng) :
  negative_body prods exprules st g = Done st' g' →
  ds_exists st' = ds_exists st ∧ ds_r st' = ds_r st ∧
  (st' = st ∨
   ∃ prod rule r,
     prod ∈ prods ∧ rule ∈ exprules ∧ ds_r st = Some r ∧
     (key_of prod r ∉ ds_exists st) ∧
     ds_X st' = ds_X st ++ [(prod, rule)] ∧ ds_y st' = ds_y st ++ [0]).
Proof.
  unfold negative_body, bind.
  destruct (choice prods g) as [prod g1| |] eqn:Hp; [|done..].
  destruct (choice exprules g1) as [rule g2| |] eqn:Hr; [|done..].
  apply choice_Done in Hp as (? & _ & Hp).
  apply choice_Done in Hr as (? & _ & Hr).
  destruct (ds_r st) as [r|] eqn:Hrst; [|done].
  destruct (decide (key_of prod r ∈ ds_exists st)); intros [= <- <-].
  - do 2 (split; [done|]). by left.
  - do 2 (split; [done|]). right. by exists prod, rule, r.
Qed.

Lemma negatives_contents_gen {V}
    (prod_to_rules : list (string * list string))
    (expansion_rules : list (string * V)) (r0 : option string)
    (g g' : rng) (st : dataset) :
  inscope_dataset prod_to_rules expansion_rules r0 g = Done st g' →
  let st0 := positives prod_to_rules expansion_rules r0 in
  ds_exists st = ds_exists st0 ∧
  ∃ negs,
    ds_X st = ds_X st0 ++ negs ∧
    ds_y st = ds_y st0 ++ replicate (length negs) 0 ∧
    length negs = length (ds_X st0) ∧
    Forall (λ p, p.1 ∈ keys prod_to_rules ∧ p.2 ∈ keys expansion_rules ∧
                 ∃ r, ds_r st0 = Some r ∧ key_of p.1 r ∉ ds_exists st0) negs.
Proof.
  intros Hrun st0. unfold inscope_dataset, while in Hrun. fold st0 in Hrun.
  apply while_fuel_visits in Hrun as [Hv Hstop].
  set (Inv := λ st : dataset,
         ds_exists st = ds_exists st0 ∧ ds_r st = ds_r st0 ∧
         ∃ negs,
           ds_X st = ds_X st0 ++ negs ∧
           ds_y st = ds_y st0 ++ replicate (length negs) 0 ∧
           length negs ≤ length (ds_X st0) ∧
           Forall (λ p, p.1 ∈ keys prod_to_rules ∧
                        p.2 ∈ keys expansion_rules ∧
                        ∃ r, ds_r st0 = Some r ∧
                             key_of p.1 r ∉ ds_exists st0) negs).
  assert (Hinv : Inv st).
  { revert Hv. apply (while_visits_inv Inv).
    - intros s g1 s' g1' (He & Hr & negs & HX & Hy & Hlen & Hall) Hc Hb.
      apply negative_body_step in Hb as (He' & Hr' & [-> | Hadd]).
      { split; [done|]. split; [done|]. by exists negs. }
      destruct Hadd as (prod & rule & r & Hp & Hrule & Hrs & Hkey & HX' & Hy').
      unfold below_target in Hc. apply Nat.ltb_lt in Hc.
      rewrite HX, length_app in Hc.
      split; [congruence|]. split; [congruence|].
      exists (negs ++ [(prod, rule)]).
      rewrite HX', Hy', HX, Hy, length_app, <- !app_assoc. simpl.
      split; [done|]. split.
      { by rewrite Nat.add_1_r, replicate_S_end. }
      split; [lia|].
      apply Forall_app. split; [done|]. constructor; [|done]. simpl.
      split; [done|]. split; [done|]. exists r.
      split; [congruence|]. by rewrite <- He.
    - split; [done|]. split; [done|]. exists []. simpl.
      rewrite !app_nil_r. split; [done|]. split; [done|].
      split; [lia | constructor]. }
  destruct Hinv as (He & _ & negs & HX & Hy & Hlen & Hall).
  split; [done|]. exists negs. do 2 (split; [done|]). split; [|done].
  unfold below_target in Hstop. apply Nat.ltb_ge in Hstop.
  rewrite HX, length_app in Hstop. lia.
Qed.

(** X13: what the negative sampling adds.  When the loop ends, the dataset
    is the positives followed by as many examples with label 0.  Each of
    them pairs a product of [prod_to_rules] with a rule of the expansion
    set, and was let in because the key of its product with [r], the rule
    the positives loop ended on, was not in [exists].  [exists] itself is as
    the positives loop left it: the negatives are not recorded, so nothing
    keeps one pair from being drawn and appended again. *)
Theorem negatives_contents {V}
    (prod_to_rules : list (string * list string))
    (expansion_rules : list (string * V)) (r0 : option string)
    (g g' : rng) (st : dataset) :
  inscope_dataset prod_to_rules expansion_rules r0 g = Done st g' →
  let st0 := positives prod_to_rules expansion_rules r0 in
  ds_exists st = ds_exists st0 ∧
  ∃ negs,
    ds_X st = ds_X st0 ++ negs ∧
    ds_y st = ds_y st0 ++ replicate (length negs) 0 ∧
    length negs = length (ds_X st0) ∧
    Forall (λ p, p.1 ∈ keys prod_to_rules ∧ p.2 ∈ keys expansion_rules ∧
                 ∃ r, ds_r st0 = Some r ∧ key_of p.1 r ∉ ds_exists st0) negs.
Proof. apply negatives_contents_gen. Qed.

Lemma negatives_contents_witness :
  ∃ st negs,
    inscope_dataset sample_prod_to_rules sample_expansion_rules None
      [0; 0; 0; 0] = Done st [] ∧
    ds_X st = ds_X (positives sample_prod_to_rules sample_expansion_rules None)
              ++ negs ∧
    length negs = 2.
Proof.
  assert (Hrun : ∃ st, inscope_dataset sample_prod_to_rules
                         sample_expansion_rules None [0; 0; 0; 0]
                       = Done st [])
    by (eexists; vm_compute; reflexivity).
  destruct Hrun as [st Hrun].
  destruct (negatives_contents _ _ _ _ _ _ Hrun)
    as (_ & negs & HX & _ & Hlen & _).
  exists st, negs. split; [exact Hrun|]. split; [exact HX|].
  rewrite Hlen. reflexivity.
Defined.

(** X14: a way for the negative sampling to spin.  If every product lists
    the rule [r] on which the positives loop ended, every draw is tested
    under a key that is in [exists] and is thrown away: with at least one
    product, the loop never ends, whatever the generator draws. *)
Theorem negative_sampling_stuck {V}
    (prod_to_rules : list (string * list string))
    (expansion_rules : list (string * V)) (r0 : option string) (r : string)
    (g g' : rng) (st : dataset) :
  prod_to_rules ≠ [] →
  ds_r (positives prod_to_rules expansion_rules r0) = Some r →
  r ∈ keys expansion_rules →
  (∀ prod rules, (prod, rules) ∈ prod_to_rules → r ∈ rules) →
  inscope_dataset prod_to_rules expansion_rules r0 g ≠ Done st g'.
Proof.
  intros Hne Hr Hexp Hall.
  destruct (positives_state prod_to_rules expansion_rules r0)
    as (HX & _ & He & _).
  assert (Hpair : ∀ prod, prod ∈ keys prod_to_rules →
            (prod, r) ∈ positive_pairs prod_to_rules expansion_rules).
  { intros prod ([prod' rules] & -> & Hin)%list_elem_of_fmap.
    apply positive_pairs_elem. exists rules. split; [done|].
    split; [by eapply Hall | done]. }
  unfold inscope_dataset, while.
  apply while_fuel_stuck.
  - unfold below_target. apply Nat.ltb_lt. rewrite HX.
    destruct prod_to_rules as [|[prod rules] items]; [done|].
    assert (Hin : (prod, r) ∈ positive_pairs ((prod, rules) :: items)
                                expansion_rules)
      by (apply Hpair; by left).
    destruct (positive_pairs ((prod, rules) :: items) expansion_rules);
      [by apply not_elem_of_nil in Hin | simpl; lia].
  - intros g0 s' g0' Hb.
    apply negative_body_step in Hb as (_ & _ & [-> | Hadd]); [done|].
    destruct Hadd as (prod & rule & r' & Hp & _ & Hr' & Hkey & _).
    exfalso. apply Hkey, He. exists prod, r'.
    rewrite Hr in Hr'. injection Hr' as <-. split; [by apply Hpair | done].
Qed.

Lemma negative_sampling_stuck_witness :
  ¬ ∃ st g',
      inscope_dataset [("CCO", ["[C:1]>>[C:1]O"])]%string
        sample_expansion_rules None [0; 1; 0; 1; 0; 1] = Done st g'.
Proof.
  intros (st & g' & Hrun). revert Hrun.
  apply (negative_sampling_stuck _ _ None "[C:1]>>[C:1]O").
  - done.
  - vm_compute. reflexivity.
  - by left.
  - intros prod rules [[= -> ->] | Hin%not_elem_of_nil]%elem_of_cons;
      [by left | done].
Defined.

(** ** The rollout dataset *)





(** ** The keys of the [exists] set *)

Lemma string_app_cons (c : Ascii.ascii) (s t : string) :
  String c s +:+ t = String c (s +:+ t).
Proof. reflexivity. Qed.

Lemma string_app_empty (t : string) : EmptyString +:+ t = t.
Proof. reflexivity. Qed.

Lemma string_app_assoc (s1 s2 s3 : string) :
  (s1 +:+ s2) +:+ s3 = s1 +:+ (s2 +:+ s3).
Proof.
  induction s1 as [|c s1 IH]; [done|].
  by rewrite !string_app_cons, IH.
Qed.

Lemma key_of_inj_gen (prod prod' r r' : string) :
  (∀ s1 s2, prod ≠ s1 +:+ "_" +:+ s2) →
  (∀ s1 s2, prod' ≠ s1 +:+ "_" +:+ s2) →
  key_of prod r = key_of prod' r' → prod = prod' ∧ r = r'.
Proof.
  unfold key_of. revert prod'.
  induction prod as [|c s IH]; intros [|c' s'] Hp Hp';
    rewrite ?string_app_cons, ?string_app_empty.
  - by intros [= ->].
  - intros [= <- _]. exfalso. by apply (Hp' EmptyString s').
  - intros [= -> _]. exfalso. by apply (Hp EmptyString s).
  - intros [= <- Heq]. destruct (IH s') as [-> ->]; [..|done|done].
    + intros s1 s2 ->. by apply (Hp (String c s1) s2).
    + intros s1 s2 ->. by apply (Hp' (String c s1) s2).
Qed.

(** X16: the key ['{}_{}'.format(prod, r)] tells two pairs apart when the
    products hold no underscore, as is the case of SMILES strings; in
    general it does not: a product [p_q] with rule [r] and a product [p]
    with rule [q_r] have one key. *)
Theorem key_of_inj (prod prod' r r' : string) :
  (∀ p q s, key_of (p +:+ "_" +:+ q) s = key_of p (q +:+ "_" +:+ s)) ∧
  ((∀ s1 s2, prod ≠ s1 +:+ "_" +:+ s2) →
   (∀ s1 s2, prod' ≠ s1 +:+ "_" +:+ s2) →
   key_of prod r = key_of prod' r' → prod = prod' ∧ r = r').
Proof.
  split; [|apply key_of_inj_gen].
  intros p q s. unfold key_of. by rewrite !string_app_assoc.
Qed.

Lemma key_of_inj_witness :
  key_of "CO" "[C:1]>>[C:1]O" = key_of "CO" "[C:1]>>[C:1]O" ∧
  ("CO" = "CO" ∧ "[C:1]>>[C:1]O" = "[C:1]>>[C:1]O")%string.
Proof.
  assert (Hco : ∀ s1 s2 : string, "CO"%string ≠ s1 +:+ "_" +:+ s2).
  { intros s1 s2 H.
    destruct s1 as [|a1 [|a2 [|a3 s1]]]; discriminate H. }
  split; [reflexivity|].
  exact (proj2 (key_of_inj "CO" "CO" "[C:1]>>[C:1]O" "[C:1]>>[C:1]O")
           Hco Hco eq_refl).
Defined.

(** ** What a finished [train] has done *)








(** ** A finished run of the script *)



(** X19: [fingerprint_reactions] on a list.  With [fp_dim] above 1 and not
    above the number of bits of any of the structural fingerprints, the call
    returns one folded fingerprint per reaction, in order, each of at least
    [fp_dim] and fewer than [2 * fp_dim] bits: the widths can differ from one
    reaction to the next when the structural fingerprints differ in size. *)
Theorem fingerprint_reactions_widths (tk : Toolkit) (fp_dim : nat)
    (reactions : list string) :
  1 < fp_dim →
  Forall (λ r, ∃ n, structural_bits tk r = Some n ∧ fp_dim ≤ n) reactions →
  ∃ fps,
    fingerprint_reactions tk reactions fp_dim = Ok fps ∧
    Forall2 (λ r fp, ∃ n, structural_bits tk r = Some n ∧
                          length fp = n / (n / fp_dim) ∧
                          fp_dim ≤ length fp < 2 * fp_dim) reactions fps.
Proof.
  intros Hd Hall.
  assert (Hfps : ∃ fps,
            Forall2 (λ r fp, fingerprint_reaction tk r fp_dim = Ok fp
                             ∧ ∃ n, structural_bits tk r = Some n ∧
                                    length fp = n / (n / fp_dim) ∧
                                    fp_dim ≤ length fp < 2 * fp_dim)
              reactions fps).
  { induction Hall as [|r rs (n & Hbits & Hn) _ [fps IH]].
    - exists []. constructor.
    - destruct (fingerprint_reaction_width tk r fp_dim n Hbits Hd Hn)
        as (fp & Hfp & Hlen & Hbound).
      exists (fp :: fps). constructor; [|done]. split; [done|].
      by exists n. }
  destruct Hfps as [fps Hfps]. exists fps. split.
  - unfold fingerprint_reactions. apply fingerprint_reactions_loop_Ok.
    exists fps. split; [done|].
    eapply Forall2_impl; [exact Hfps|]. by intros r fp [? _].
  - eapply Forall2_impl; [exact Hfps|]. by intros r fp [_ ?].
Qed.

Lemma fingerprint_reactions_widths_witness :
  ∃ fps,
    fingerprint_reactions sample_toolkit
      ["[C:1]>>[C:1]O"; "[C:1]>>[C:1]C"]%string 1000 = Ok fps ∧
    length fps = 2.
Proof.
  destruct (fingerprint_reactions_widths sample_toolkit 1000
              ["[C:1]>>[C:1]O"; "[C:1]>>[C:1]C"]%string)
    as (fps & Hrun & Hall); [lia | |].
  - repeat constructor; exists 4096; (split; [vm_compute; reflexivity | lia]).
  - exists fps. split; [exact Hrun|].
    apply Forall2_length in Hall. by rewrite <- Hall.
Defined.
